(** * Skew-T log-P projection (skewt_iasi_0139.py): transforms, intervals,
      ticks and spines

    The script defines four classes on top of matplotlib: [SkewXTick],
    [SkewXAxis], [SkewSpine] and [SkewXAxes].  This development embeds
    them, together with the part of [matplotlib.transforms] they call.

    Numbers.  The program computes in IEEE binary64.  Here a number is a
    real ([R]) and arithmetic is exact, so the theorems below are about
    the computation without rounding.  Two places of the library leave
    the reals and are modelled as interruptions of the computation (type
    [result]):
    - [numpy.linalg.inv] raises [LinAlgError] on a singular matrix;
    - [1.0 / inw] with a zero width is [inf] in binary64 (numpy warns, it
      does not raise): the model stops there with [NonFinite] and does
      not follow the value further.
    The transform of a log scale is the library's with its default
    [nonpositive='clip']: the logarithm of a number that is not positive
    is -1000. *)

From Stdlib Require Import Reals Lra Bool ZArith Lia List Ascii String.
Import ListNotations.

Open Scope R_scope.

(** ** Outcomes of a call *)

Inductive interrupt : Type :=
  | LinAlgError   (* exception raised by numpy.linalg.inv *)
  | TypeError     (* exception raised by an order comparison with None *)
  | NonFinite.    (* a binary64 operation produced inf or NaN *)

Inductive result (A : Type) : Type :=
  | Ok (a : A)
  | Halt (i : interrupt).

Arguments Ok {A} a.
Arguments Halt {A} i.

Definition bind {A B : Type} (c : result A) (k : A -> result B) : result B :=
  match c with
  | Ok a => k a
  | Halt i => Halt i
  end.

Declare Scope result_scope.
Delimit Scope result_scope with result.
Notation "x <- c ;; k" := (bind c (fun x => k))
  (at level 61, c at next level, right associativity) : result_scope.

(** Comparisons of two numbers, as booleans. *)
Definition Rleb (a b : R) : bool := if Rle_dec a b then true else false.
Definition Rgtb (a b : R) : bool := if Rgt_dec a b then true else false.

Definition point : Type := (R * R)%type.

(** ** matplotlib.transforms: the part the script calls *)

(** A 3x3 affine matrix with last row [0 0 1]; the names of the six
    entries are those of [Affine2D.skew]:
    [(xx, xy, x0), (yx, yy, y0), _ = mtx.tolist()]. *)
Record matrix : Type := Matrix {
  xx : R; xy : R; x0 : R;
  yx : R; yy : R; y0 : R
}.

Module Mtx.

(** The matrix of [Affine2D()]. *)
Definition identity : matrix := Matrix 1 0 0 0 1 0.

(** [np.dot(b, a)] on two such matrices. *)
Definition dot (b a : matrix) : matrix :=
  Matrix (xx b * xx a + xy b * yx a)
         (xx b * xy a + xy b * yy a)
         (xx b * x0 a + xy b * y0 a + x0 b)
         (yx b * xx a + yy b * yx a)
         (yx b * xy a + yy b * yy a)
         (yx b * x0 a + yy b * y0 a + y0 b).

Definition det (m : matrix) : R := xx m * yy m - xy m * yx m.

(** [numpy.linalg.inv]: the inverse matrix; [LinAlgError] when the
    matrix is singular. *)
Definition inv (m : matrix) : result matrix :=
  if Req_dec_T (det m) 0 then Halt LinAlgError
  else Ok (Matrix (yy m / det m)
                  (- xy m / det m)
                  ((xy m * y0 m - yy m * x0 m) / det m)
                  (- yx m / det m)
                  (xx m / det m)
                  ((yx m * x0 m - xx m * y0 m) / det m)).

(** [Affine2DBase.transform_affine] on one point. *)
Definition apply (m : matrix) (p : point) : point :=
  (xx m * fst p + xy m * snd p + x0 m,
   yx m * fst p + yy m * snd p + y0 m).

(** [math.radians]. *)
Definition radians (deg : R) : R := deg * PI / 180.

(** [Affine2D.skew(xShear, yShear)]:
    [mtx = [[1 rx 0], [ry 1 0], [0 0 1]] * mtx] with [rx = tan xShear],
    [ry = tan yShear]. *)
Definition skew (xShear yShear : R) (m : matrix) : matrix :=
  dot (Matrix 1 (tan xShear) 0 (tan yShear) 1 0) m.

(** [Affine2D.skew_deg]. *)
Definition skew_deg (xShear yShear : R) (m : matrix) : matrix :=
  skew (radians xShear) (radians yShear) m.

End Mtx.

(** [Bbox]: the two corners [(x0, y0)] and [(x1, y1)]. *)
Record Bbox : Type := MkBbox {
  bx0 : R; by0 : R; bx1 : R; by1 : R
}.

Definition intervalx (b : Bbox) : R * R := (bx0 b, bx1 b).
Definition intervaly (b : Bbox) : R * R := (by0 b, by1 b).
(** [Bbox.bounds]: [(x0, y0, x1 - x0, y1 - y0)]. *)
Definition width (b : Bbox) : R := bx1 b - bx0 b.
Definition height (b : Bbox) : R := by1 b - by0 b.

(** The scale of an axis: linear (its transform is the identity) or
    logarithmic in base 10, which [semilogy] selects. *)
Inductive scale : Type := LinearScale | LogScale.

(** [np.log10] and [np.power(10, a)].  [log10] is meant on positive
    numbers only. *)
Definition log10 (v : R) : R := ln v / ln 10.
Definition pow10 (v : R) : R := exp (v * ln 10).

(** [LogTransform.transform_non_affine] on one coordinate, with
    [nonpositive='clip'], the default of a log scale:
    [out = np.log10(values); out[values <= 0] = -1000]. *)
Definition log10_clip (v : R) : R :=
  if Rle_dec v 0 then -1000 else log10 v.

(** The transform tree.  A node that names [viewLim], [bbox] or the
    scales of the axes is live: it is evaluated against the axes' state
    at the time of the call, as matplotlib's invalidation mechanism
    guarantees. *)
Inductive Transform : Type :=
  | IdentityTransform
  | LogTransform                     (* element-wise log10, clipped *)
  | InvertedLogTransform             (* element-wise 10 ** a *)
  | TransformWrapper_scale           (* axes.transScale: blend of the two scales' transforms *)
  | Affine2D (m : matrix)
  | BboxTransformFrom (b : BboxNode)
  | BboxTransformTo (b : BboxNode)
  | CompositeGenericTransform (a b : Transform)   (* a, then b *)
  | BlendedGenericTransform (x y : Transform)     (* x for the abscissa, y for the ordinate *)
with BboxNode : Type :=
  | ViewLim                          (* axes.viewLim *)
  | AxesBbox                         (* axes.bbox, in pixels *)
  | TransformedBbox (b : BboxNode) (t : Transform).

Declare Scope transform_scope.
Delimit Scope transform_scope with transform.
Bind Scope transform_scope with Transform.
(** [a + b] on transforms: [composite_transform_factory(a, b)]. *)
Notation "a + b" := (CompositeGenericTransform a b) : transform_scope.

(** [scale.get_transform()] and its [inverted()]. *)
Definition scale_transform (s : scale) : Transform :=
  match s with
  | LinearScale => IdentityTransform
  | LogScale => LogTransform
  end.

Definition scale_inverted (s : scale) : Transform :=
  match s with
  | LinearScale => IdentityTransform
  | LogScale => InvertedLogTransform
  end.

(** What [scale_transform s] does to one coordinate. *)
Definition scale_forward (s : scale) (v : R) : R :=
  match s with
  | LinearScale => v
  | LogScale => log10_clip v
  end.

(** The state of an [Axes] that the transforms read. *)
Record AxesState : Type := MkAxesState {
  viewLim : Bbox;
  bbox : Bbox;
  xscale : scale;
  yscale : scale
}.

Section Evaluation.

Variable ax : AxesState.

Local Open Scope result_scope.

(** [BboxTransformFrom.get_matrix]:
    [x_scale = 1.0 / inw; y_scale = 1.0 / inh]. *)
Definition matrix_from (b : Bbox) : result matrix :=
  if Req_dec_T (width b) 0 then Halt NonFinite
  else if Req_dec_T (height b) 0 then Halt NonFinite
  else
    let x_scale := 1 / width b in
    let y_scale := 1 / height b in
    Ok (Matrix x_scale 0 (- bx0 b * x_scale)
               0 y_scale (- by0 b * y_scale)).

(** [BboxTransformTo.get_matrix]. *)
Definition matrix_to (b : Bbox) : matrix :=
  Matrix (width b) 0 (bx0 b) 0 (height b) (by0 b).

(** [Transform.transform] on one point, and the points of a bbox node
    ([TransformedBbox.get_points] transforms the two corners). *)
Fixpoint transform (t : Transform) (p : point) : result point :=
  match t with
  | IdentityTransform => Ok p
  | LogTransform => Ok (log10_clip (fst p), log10_clip (snd p))
  | InvertedLogTransform => Ok (pow10 (fst p), pow10 (snd p))
  | TransformWrapper_scale =>
      Ok (scale_forward (xscale ax) (fst p), scale_forward (yscale ax) (snd p))
  | Affine2D m => Ok (Mtx.apply m p)
  | BboxTransformFrom b =>
      bb <- get_points b ;;
      m <- matrix_from bb ;;
      Ok (Mtx.apply m p)
  | BboxTransformTo b =>
      bb <- get_points b ;;
      Ok (Mtx.apply (matrix_to bb) p)
  | CompositeGenericTransform a b =>
      q <- transform a p ;;
      transform b q
  | BlendedGenericTransform x y =>
      px <- transform x p ;;
      py <- transform y p ;;
      Ok (fst px, snd py)
  end
with get_points (b : BboxNode) : result Bbox :=
  match b with
  | ViewLim => Ok (viewLim ax)
  | AxesBbox => Ok (bbox ax)
  | TransformedBbox b' t =>
      bb <- get_points b' ;;
      p0 <- transform t (bx0 bb, by0 bb) ;;
      p1 <- transform t (bx1 bb, by1 bb) ;;
      Ok (MkBbox (fst p0) (snd p0) (fst p1) (snd p1))
  end.

(** [Transform.inverted]: a transform that is not live any more (the
    matrices are computed and inverted at the time of the call). *)
Fixpoint inverted (t : Transform) : result Transform :=
  match t with
  | IdentityTransform => Ok IdentityTransform
  | LogTransform => Ok InvertedLogTransform
  | InvertedLogTransform => Ok LogTransform
  | TransformWrapper_scale =>
      Ok (BlendedGenericTransform (scale_inverted (xscale ax))
                                  (scale_inverted (yscale ax)))
  | Affine2D m =>
      m' <- Mtx.inv m ;;
      Ok (Affine2D m')
  | BboxTransformFrom b =>
      bb <- get_points b ;;
      m <- matrix_from bb ;;
      m' <- Mtx.inv m ;;
      Ok (Affine2D m')
  | BboxTransformTo b =>
      bb <- get_points b ;;
      m' <- Mtx.inv (matrix_to bb) ;;
      Ok (Affine2D m')
  | CompositeGenericTransform a b =>
      ib <- inverted b ;;
      ia <- inverted a ;;
      Ok (CompositeGenericTransform ib ia)
  | BlendedGenericTransform x y =>
      ix <- inverted x ;;
      iy <- inverted y ;;
      Ok (BlendedGenericTransform ix iy)
  end.

End Evaluation.

(** [transforms.interval_contains(interval, val)]:
    [a, b = interval; if a > b: a, b = b, a; return a <= val <= b]. *)
Definition interval_contains (interval : R * R) (val : R) : bool :=
  let (a, b) := interval in
  let (a, b) := if Rgtb a b then (b, a) else (a, b) in
  Rleb a val && Rleb val b.

(** ** The script's classes *)

(** Python's [x and y] and [x or y] with a boolean left operand: the
    right operand is evaluated only when the left one does not decide. *)
Definition py_and (x : bool) (y : result bool) : result bool :=
  if x then y else Ok false.
Definition py_or (x : bool) (y : result bool) : result bool :=
  if x then Ok true else y.

(** *** class SkewXAxes(Axes) *)
Module SkewXAxes.

Local Open Scope result_scope.

Record t : Type := Make {
  state : AxesState;
  transScale : Transform;
  transLimits : Transform;
  transAxes : Transform;
  transDataToAxes : Transform;
  transData : Transform;
  _xaxis_transform : Transform
}.

(** [Axes._set_lim_and_transforms] of the base class: it creates the
    transform objects and computes nothing. *)
Definition Axes_set_lim_and_transforms (self : t) : result t :=
  let transAxes := BboxTransformTo AxesBbox in
  let transScale := TransformWrapper_scale in
  let transLimits := BboxTransformFrom (TransformedBbox ViewLim transScale) in
  let transData := (transScale + (transLimits + transAxes))%transform in
  Ok (Make (state self) transScale transLimits transAxes
           (transDataToAxes self) transData
           (BlendedGenericTransform transData transAxes)).

(** [rot = 30], the local constant of [_set_lim_and_transforms]. *)
Definition rot : R := 30.

Definition _set_lim_and_transforms (self : t) : result t :=
  self <- Axes_set_lim_and_transforms self ;;
  let transDataToAxes :=
    (transScale self + transLimits self
     + Affine2D (Mtx.skew_deg rot 0 Mtx.identity))%transform in
  let transData := (transDataToAxes + transAxes self)%transform in
  let _xaxis_transform :=
    ((BlendedGenericTransform (transScale self + transLimits self)
                              IdentityTransform
      + Affine2D (Mtx.skew_deg rot 0 Mtx.identity))
     + transAxes self)%transform in
  Ok (Make (state self) (transScale self) (transLimits self) (transAxes self)
           transDataToAxes transData _xaxis_transform).

Definition lower_xlim (self : t) : R * R :=
  intervalx (viewLim (state self)).

Definition upper_xlim (self : t) : result (R * R) :=
  inv <- inverted (state self) (transDataToAxes self) ;;
  p0 <- transform (state self) inv (0, 1) ;;
  p1 <- transform (state self) inv (1, 1) ;;
  Ok (fst p0, fst p1).

(** Assignment to [viewLim.intervalx] and [viewLim.intervaly], which
    is how [set_xlim] and [set_ylim] store the limits. *)
Definition set_intervalx (self : t) (left right : R) : t :=
  let s := state self in
  let v := viewLim s in
  Make (MkAxesState (MkBbox left (by0 v) right (by1 v))
                    (bbox s) (xscale s) (yscale s))
       (transScale self) (transLimits self) (transAxes self)
       (transDataToAxes self) (transData self) (_xaxis_transform self).

Definition set_intervaly (self : t) (bottom top : R) : t :=
  let s := state self in
  let v := viewLim s in
  Make (MkAxesState (MkBbox (bx0 v) bottom (bx1 v) top)
                    (bbox s) (xscale s) (yscale s))
       (transScale self) (transLimits self) (transAxes self)
       (transDataToAxes self) (transData self) (_xaxis_transform self).

End SkewXAxes.

(** *** class SkewXAxis(maxis.XAxis) *)
Module SkewXAxis.

Local Open Scope result_scope.

(** [return self.axes.upper_xlim[0], self.axes.lower_xlim[1]] *)
Definition get_view_interval (axes : SkewXAxes.t) : result (R * R) :=
  upper <- SkewXAxes.upper_xlim axes ;;
  Ok (fst upper, snd (SkewXAxes.lower_xlim axes)).

End SkewXAxis.

(** *** class SkewXTick(maxis.XTick) *)
Module SkewXTick.

Local Open Scope result_scope.

(** The tick's own attributes.  [_loc] is [None] or a number.  The
    axes object is shared with the tick ([self.axes]); the methods
    below take its current state as an argument. *)
Record t : Type := Make {
  _loc : option R;
  _gridOn : bool;
  _tick1On : bool;
  _label1On : bool;
  _tick2On : bool;
  _label2On : bool
}.

Definition get_loc (self : t) : option R := _loc self.

(** [self._loc = loc], then the base class moves the tick's artists. *)
Definition update_position (self : t) (loc : option R) : t :=
  Make loc (_gridOn self) (_tick1On self) (_label1On self)
       (_tick2On self) (_label2On self).

Definition _has_default_loc (self : t) : bool :=
  match get_loc self with
  | None => true
  | Some _ => false
  end.

(** [transforms.interval_contains(interval, self.get_loc())]: the
    interval is evaluated first; comparing a number with [None] is a
    [TypeError]. *)
Definition contains_loc (interval : result (R * R)) (loc : option R)
  : result bool :=
  i <- interval ;;
  match loc with
  | Some val => Ok (interval_contains i val)
  | None => Halt TypeError
  end.

Definition _need_lower (axes : SkewXAxes.t) (self : t) : result bool :=
  py_or (_has_default_loc self)
        (contains_loc (Ok (SkewXAxes.lower_xlim axes)) (get_loc self)).

Definition _need_upper (axes : SkewXAxes.t) (self : t) : result bool :=
  py_or (_has_default_loc self)
        (contains_loc (SkewXAxes.upper_xlim axes) (get_loc self)).

(** [return self.axes.xaxis.get_view_interval()] *)
Definition get_view_interval (axes : SkewXAxes.t) (self : t)
  : result (R * R) :=
  SkewXAxis.get_view_interval axes.

(** The five properties: getter, then setter. *)
Definition gridOn (axes : SkewXAxes.t) (self : t) : result bool :=
  py_and (_gridOn self)
         (py_or (_has_default_loc self)
                (contains_loc (get_view_interval axes self) (get_loc self))).

Definition set_gridOn (self : t) (value : bool) : t :=
  Make (_loc self) value (_tick1On self) (_label1On self)
       (_tick2On self) (_label2On self).

Definition tick1On (axes : SkewXAxes.t) (self : t) : result bool :=
  py_and (_tick1On self) (_need_lower axes self).

Definition set_tick1On (self : t) (value : bool) : t :=
  Make (_loc self) (_gridOn self) value (_label1On self)
       (_tick2On self) (_label2On self).

Definition label1On (axes : SkewXAxes.t) (self : t) : result bool :=
  py_and (_label1On self) (_need_lower axes self).

Definition set_label1On (self : t) (value : bool) : t :=
  Make (_loc self) (_gridOn self) (_tick1On self) value
       (_tick2On self) (_label2On self).

Definition tick2On (axes : SkewXAxes.t) (self : t) : result bool :=
  py_and (_tick2On self) (_need_upper axes self).

Definition set_tick2On (self : t) (value : bool) : t :=
  Make (_loc self) (_gridOn self) (_tick1On self) (_label1On self)
       value (_label2On self).

Definition label2On (axes : SkewXAxes.t) (self : t) : result bool :=
  py_and (_label2On self) (_need_upper axes self).

Definition set_label2On (self : t) (value : bool) : t :=
  Make (_loc self) (_gridOn self) (_tick1On self) (_label1On self)
       (_tick2On self) value.

End SkewXTick.

(** *** class SkewSpine(mspines.Spine) *)
Inductive spine_type : Type := top | bottom | left | right.

(** Which class a spine object belongs to: the script's [SkewSpine] or
    matplotlib's [Spine]. *)
Inductive spine_class : Type := SkewSpine_cls | Spine_cls.

(** A linear spine: its class, its tag and the two vertices of its
    path. *)
Record Spine : Type := MkSpine {
  cls : spine_class;
  spine_tag : spine_type;
  vertices : point * point
}.

(** [pts[:, 0] = interval]: the abscissas of the two vertices, in
    order.  [set_column1] does the same on the ordinates. *)
Definition set_column0 (pts : point * point) (interval : R * R)
  : point * point :=
  ((fst interval, snd (fst pts)), (snd interval, snd (snd pts))).

Definition set_column1 (pts : point * point) (interval : R * R)
  : point * point :=
  ((fst (fst pts), fst interval), (fst (snd pts), snd interval)).

Module SkewSpine.

Local Open Scope result_scope.

Definition _adjust_location (axes : SkewXAxes.t) (self : Spine)
  : result Spine :=
  let pts := vertices self in
  match spine_tag self with
  | top =>
      upper <- SkewXAxes.upper_xlim axes ;;
      Ok (MkSpine (cls self) (spine_tag self) (set_column0 pts upper))
  | _ =>
      Ok (MkSpine (cls self) (spine_tag self)
                  (set_column0 pts (SkewXAxes.lower_xlim axes)))
  end.

End SkewSpine.

Module MSpine.

(** [Spine.linear_spine(axes, spine_type)] for class [c]: the value
    0.999 is a placeholder that the first adjustment replaces. *)
Definition linear_spine (c : spine_class) (s : spine_type) : Spine :=
  MkSpine c s
    match s with
    | left => ((0, 0.999), (0, 0.999))
    | right => ((1, 0.999), (1, 0.999))
    | bottom => ((0.999, 0), (0.999, 0))
    | top => ((0.999, 1), (0.999, 1))
    end.

(** matplotlib's [Spine._adjust_location] for a linear spine with no
    bounds set: left and right take the ordinates from
    [viewLim.intervaly], bottom and top the abscissas from
    [viewLim.intervalx]. *)
Definition _adjust_location (axes : SkewXAxes.t) (self : Spine)
  : result Spine :=
  let v1 := vertices self in
  match spine_tag self with
  | left | right =>
      Ok (MkSpine (cls self) (spine_tag self)
            (set_column1 v1 (intervaly (viewLim (SkewXAxes.state axes)))))
  | bottom | top =>
      Ok (MkSpine (cls self) (spine_tag self)
            (set_column0 v1 (intervalx (viewLim (SkewXAxes.state axes)))))
  end.

End MSpine.

(** Method dispatch on the spine's class, as a layout pass does when it
    calls [spine._adjust_location()]. *)
Definition adjust_location (axes : SkewXAxes.t) (self : Spine)
  : result Spine :=
  match cls self with
  | SkewSpine_cls => SkewSpine._adjust_location axes self
  | Spine_cls => MSpine._adjust_location axes self
  end.

(** [SkewXAxes._gen_axes_spines]: the dictionary of the four spines, as
    a function of its key. *)
Definition _gen_axes_spines (key : spine_type) : Spine :=
  match key with
  | top => MSpine.linear_spine SkewSpine_cls top
  | bottom => MSpine.linear_spine Spine_cls bottom
  | left => MSpine.linear_spine Spine_cls left
  | right => MSpine.linear_spine Spine_cls right
  end.

(** ** The indices computed by the script

    [MWPI], [Haines_H], [Haines_M] and [C_Haines] are called with
    one-element arrays and numpy scalars; the model takes numbers.  The
    calls of [print] are left out.  [CAPE / 100] is the true division
    of Python 3. *)

Definition Rltb (a b : R) : bool := if Rlt_dec a b then true else false.
Definition Rgeb (a b : R) : bool := if Rge_dec a b then true else false.

Record MWPI_values : Type := MkMWPI {
  gamma : R; MWPIv1 : R; MWPIv2 : R; WGP : R; WGPv2 : R
}.

(** The division [(T_LO - T_UP)/(Z_UP - Z_LO)] is numpy's: by zero it
    gives inf or NaN and raises nothing. *)
Definition MWPI (Z_UP Z_LO T_UP T_LO TD_UP TD_LO CAPE : R)
  : result MWPI_values :=
  if Req_dec_T (Z_UP - Z_LO) 0 then Halt NonFinite
  else
    let gamma := (T_LO - T_UP) / (Z_UP - Z_LO) in
    let DD_UP := T_UP - TD_UP in
    let DD_LO := T_LO - TD_LO in
    let DDD := DD_LO - DD_UP in
    let DDD := if Rltb DDD 0 then 0 else DDD in
    let MWPIv1 := (CAPE / 100) + gamma + DDD in
    let MWPIv2 := (CAPE / 1000) + (gamma / 5) + (DDD / 5) in
    let WGP := (0.4553 * MWPIv1) + 28.769 in
    let WGPv2 := (0.35435365777 * (MWPIv2 ^ 2))
                 + (1.29598552473 * MWPIv2) + 33.8176788073 in
    Ok (MkMWPI gamma MWPIv1 MWPIv2 WGP WGPv2).

Definition Haines_H (T_UP T_LO TD_LO : R) : Z :=
  let Tdiff := T_LO - T_UP in
  let DD_LO := T_LO - TD_LO in
  let ST :=
    if Rltb Tdiff 17 then 1%Z
    else if Rgeb Tdiff 17 && Rleb Tdiff 21 then 2%Z
    else 3%Z in
  let MT :=
    if Rltb DD_LO 14 then 1%Z
    else if Rgeb DD_LO 14 && Rleb DD_LO 20 then 2%Z
    else 3%Z in
  (ST + MT)%Z.

Definition Haines_M (T_UP T_LO TD_LO : R) : Z :=
  let Tdiff := T_LO - T_UP in
  let DD_LO := T_LO - TD_LO in
  let ST :=
    if Rltb Tdiff 5 then 1%Z
    else if Rgeb Tdiff 5 && Rleb Tdiff 10 then 2%Z
    else 3%Z in
  let MT :=
    if Rltb DD_LO 5 then 1%Z
    else if Rgeb DD_LO 5 && Rleb DD_LO 12 then 2%Z
    else 3%Z in
  (ST + MT)%Z.

Definition C_Haines (T_UP T_LO TD_LO : R) : R :=
  let Tdiff := T_LO - T_UP in
  let DD_LO := T_LO - TD_LO in
  let CA := ((T_LO - T_UP) / 2) - 2 in
  let CB := ((T_LO - TD_LO) / 3) - 1 in
  let DD_LO := if Rgtb (T_LO - TD_LO) 30 then 30 else DD_LO in
  let CB := if Rgtb CB 5 then 5 + ((CB - 5) / 2) else CB in
  let CH := CA + CB in
  CH.

(** ** The cleaning of the sounding text

    The script holds each sounding as a string with a space between any
    two characters and three spaces between two numbers, and cleans it
    with three calls of [re.sub] before [np.fromstring] reads it.  A
    string is a list of characters with codes below 256. *)

Definition text : Type := list ascii.

(** [\s] of a [str] pattern: the characters for which [str.isspace]
    holds, by code. *)
Definition is_space (c : ascii) : bool :=
  let n := nat_of_ascii c in
  ((9 <=? n) && (n <=? 13) || (28 <=? n) && (n <=? 32)
   || (n =? 133) || (n =? 160))%nat.

(** [\d]: the decimal digits. *)
Definition is_digit (c : ascii) : bool :=
  let n := nat_of_ascii c in
  ((48 <=? n) && (n <=? 57))%nat.

Definition is_blank (c : ascii) : bool := (nat_of_ascii c =? 32)%nat.
Definition is_dot (c : ascii) : bool := (nat_of_ascii c =? 46)%nat.

Definition space_char : ascii := " "%char.
Definition dot_char : ascii := "."%char.

(** The number of leading characters of [s] that [\s] matches. *)
Fixpoint space_run (s : text) : nat :=
  match s with
  | c :: s' => if is_space c then S (space_run s') else 0%nat
  | [] => 0%nat
  end.

(** A match of [\s(\.)\s+(\d)] at the start of [s]: the digit of
    group 2 and the length of the match.  [\s+] takes the whole run of
    spaces, since a shorter run is followed by a space, not by a
    digit. *)
Definition match_dot (s : text) : option (ascii * nat) :=
  match s with
  | c1 :: c2 :: c3 :: rest =>
      if is_space c1 && is_dot c2 && is_space c3 then
        let k := space_run rest in
        match skipn k rest with
        | d :: _ => if is_digit d then Some (d, (4 + k)%nat) else None
        | [] => None
        end
      else None
  | _ => None
  end.

(** [re.sub(r'\s(\.)\s+(\d)', r'\1\2', s)]: matches are taken from
    left to right and do not overlap; [skip] is the number of
    characters still covered by the last match. *)
Fixpoint sub_dot (skip : nat) (s : text) : text :=
  match s with
  | [] => []
  | c :: s' =>
      match skip with
      | S k => sub_dot k s'
      | O =>
          match match_dot s with
          | Some (d, len) => dot_char :: d :: sub_dot (Nat.pred len) s'
          | None => c :: sub_dot 0 s'
          end
      end
  end.

(** [re.sub('(?<=\d) (?=\d)', '', s)]: [prev] is the character before
    the current one in the subject string. *)
Fixpoint sub_between_digits (prev : option ascii) (s : text) : text :=
  match s with
  | [] => []
  | c :: s' =>
      let behind := match prev with Some p => is_digit p | None => false end in
      let ahead := match s' with n :: _ => is_digit n | [] => false end in
      if is_blank c && behind && ahead
      then sub_between_digits (Some c) s'
      else c :: sub_between_digits (Some c) s'
  end.

(** [re.sub(r'\s+\s', r' ', s)]: a run of two or more spaces is
    matched as a whole; [in_run] tells that the current character
    continues a run already replaced. *)
Fixpoint sub_runs (in_run : bool) (s : text) : text :=
  match s with
  | [] => []
  | c :: s' =>
      if is_space c then
        if in_run then sub_runs true s'
        else
          match s' with
          | n :: _ => if is_space n then space_char :: sub_runs true s'
                      else c :: sub_runs false s'
          | [] => [c]
          end
      else c :: sub_runs false s'
  end.

(** The three substitutions in the order of the script. *)
Definition clean (s : text) : text :=
  sub_runs false (sub_between_digits None (sub_dot 0 s)).

(** The text of a number, a non-empty integer part and a fractional
    part (no point when it is empty), and the way the script holds a
    list of numbers. *)
Definition written (n : text * text) : text :=
  match snd n with
  | [] => fst n
  | _ :: _ => fst n ++ dot_char :: snd n
  end.

Fixpoint spaced (s : text) : text :=
  match s with
  | [] => []
  | [c] => [c]
  | c :: s' => c :: space_char :: spaced s'
  end.

Fixpoint join (sep : text) (l : list text) : text :=
  match l with
  | [] => []
  | [x] => x
  | x :: l' => x ++ sep ++ join sep l'
  end.

Definition held (numbers : list (text * text)) : text :=
  join [space_char; space_char; space_char] (map (fun n => spaced (written n)) numbers).

Definition well_formed (n : text * text) : Prop :=
  fst n <> [] /\ forallb is_digit (fst n) = true
  /\ forallb is_digit (snd n) = true.

(** The characters of a text that are not spaces, and the texts in
    which no two spaces are adjacent. *)
Definition visible (s : text) : text :=
  filter (fun c => negb (is_space c)) s.

Fixpoint no_double_space (s : text) : bool :=
  match s with
  | c1 :: s' =>
      match s' with
      | c2 :: _ => negb (is_space c1 && is_space c2) && no_double_space s'
      | [] => true
      end
  | [] => true
  end.

(** A space before each character; and a number after the first
    substitution: the point and the first decimal are joined, the other
    characters are still apart. *)
Definition space_each (s : text) : text :=
  flat_map (fun c => [space_char; c]) s.

Definition half_joined (n : text * text) : text :=
  match snd n with
  | [] => spaced (fst n)
  | f :: fs => spaced (fst n) ++ dot_char :: f :: space_each fs
  end.

(** ** The cross-section script (cross_section_thetaE_sandy_rap_1030_0000.py)

    The equivalent potential temperature, computed three times with the
    same expression, here on one element of the arrays.  [x ** y] is
    [Rpower x y], which is the power for a positive [x].  The pressure
    level is a positive constant of the script (1000, 850, or an element
    of [press]).  Two places leave the finite numbers, and the model
    stops there: a pressure level that is not positive ([1000/prlev] is
    a division by zero, or a negative base of a fractional power, which
    is NaN), and the temperature -237.7, where
    [(7.5 * TC)/(237.7 + TC)] is a division by zero. *)
Definition ThetaE (TC RH prlev : R) : result R :=
  if Rle_dec prlev 0 then Halt NonFinite
  else if Req_dec_T (237.7 + TC) 0 then Halt NonFinite
  else
    Ok ((273.15 + TC) * Rpower (1000 / prlev) 0.286
        + (3 * (RH * (3.884266 * Rpower 10 ((7.5 * TC) / (237.7 + TC)))
                / 100))).

(** The thinning of the wind barbs.  [a[r0::rs, c0::cs] = v] writes [v]
    at the rows [r0, r0 + rs, ...] and columns [c0, c0 + cs, ...] of a
    two-dimensional array, here a list of rows. *)
Definition on_stride (start step i : nat) : bool :=
  ((start <=? i) && ((i - start) mod step =? 0))%nat.

Fixpoint map_indexed {A B : Type} (f : nat -> A -> B) (i : nat) (l : list A)
  : list B :=
  match l with
  | [] => []
  | x :: l' => f i x :: map_indexed f (S i) l'
  end.

Definition assign_strided {A : Type} (r0 rs c0 cs : nat) (v : A)
    (a : list (list A)) : list (list A) :=
  map_indexed
    (fun i row =>
       map_indexed
         (fun j x => if on_stride r0 rs i && on_stride c0 cs j then v else x)
         0%nat row)
    0%nat a.

(** The four assignments made to [U850], [V850], [U500] and [V500]:
    [a[::2, 1::2] = nan; a[1::2, ::2] = nan; a[::3, 1::3] = nan;
    a[1::3, ::3] = nan]. *)
Definition thin {A : Type} (nan : A) (a : list (list A)) : list (list A) :=
  assign_strided 1 3 0 3 nan
    (assign_strided 0 3 1 3 nan
       (assign_strided 1 2 0 2 nan
          (assign_strided 0 2 1 2 nan a))).

(** The element [a[i, j]], when there is one. *)
Definition element {A : Type} (a : list (list A)) (i j : nat) : option A :=
  match nth_error a i with
  | Some row => nth_error row j
  | None => None
  end.

(** The positions that the thinning leaves alone: row and column of the
    same parity, and not (row, column) congruent to (0, 1) or (1, 0)
    modulo 3. *)
Definition kept (i j : nat) : bool :=
  ((i mod 2 =? j mod 2)
   && negb ((i mod 3 =? 0) && (j mod 3 =? 1))
   && negb ((i mod 3 =? 1) && (j mod 3 =? 0)))%nat.

(** ** Notions used by the statements *)

(** The tangent of the skew angle, [math.tan(math.radians(rot))]. *)
Definition shear : R := tan (Mtx.radians SkewXAxes.rot).

(** What the inverse of [scale_transform s] does to one coordinate. *)
Definition scale_backward (s : scale) (v : R) : R :=
  match s with
  | LinearScale => v
  | LogScale => pow10 v
  end.

(** The numbers on which a scale's transform is defined. *)
Definition in_domain (s : scale) (v : R) : Prop :=
  match s with
  | LinearScale => True
  | LogScale => 0 < v
  end.

(** [TransformedBbox(viewLim, transScale)]: the view limits after the
    scales. *)
Definition scaled_viewLim (s : AxesState) : Bbox :=
  MkBbox (scale_forward (xscale s) (bx0 (viewLim s)))
         (scale_forward (yscale s) (by0 (viewLim s)))
         (scale_forward (xscale s) (bx1 (viewLim s)))
         (scale_forward (yscale s) (by1 (viewLim s))).

(** A state is nondegenerate when its view limits lie in the domain of
    the scales and have non-zero width and height. *)
Definition nondegenerate (s : AxesState) : Prop :=
  in_domain (xscale s) (bx0 (viewLim s)) /\
  in_domain (xscale s) (bx1 (viewLim s)) /\
  in_domain (yscale s) (by0 (viewLim s)) /\
  in_domain (yscale s) (by1 (viewLim s)) /\
  bx0 (viewLim s) <> bx1 (viewLim s) /\
  by0 (viewLim s) <> by1 (viewLim s).

(** The transform tree that [_set_lim_and_transforms] stores in
    [transDataToAxes]. *)
Definition skew_stack : Transform :=
  (TransformWrapper_scale
   + BboxTransformFrom (TransformedBbox ViewLim TransformWrapper_scale)
   + Affine2D (Mtx.skew_deg SkewXAxes.rot 0 Mtx.identity))%transform.

(** The axes object [self] at a later time: same transform objects,
    current state [s] (limits set by [set_xlim] and [set_ylim], scales
    by [semilogy], pixel box by a resize). *)
Definition at_state (self : SkewXAxes.t) (s : AxesState) : SkewXAxes.t :=
  SkewXAxes.Make s (SkewXAxes.transScale self) (SkewXAxes.transLimits self)
    (SkewXAxes.transAxes self) (SkewXAxes.transDataToAxes self)
    (SkewXAxes.transData self) (SkewXAxes._xaxis_transform self).

(** Scale and limits normalisation, [transScale + transLimits]: data to
    the unit square, before the skew. *)
Definition normalize (s : AxesState) (p : point) : result point :=
  transform s
    (TransformWrapper_scale
     + BboxTransformFrom (TransformedBbox ViewLim TransformWrapper_scale))
    p.

(** The transform that [skew_stack.inverted()] returns when the scaled
    limits are the box [b]. *)
Definition skew_stack_inverse (s : AxesState) (b : Bbox) : Transform :=
  (Affine2D (Matrix 1 (- shear) 0 0 1 0)
   + (Affine2D (matrix_to b)
      + BlendedGenericTransform (scale_inverted (xscale s))
                                (scale_inverted (yscale s))))%transform.

(** The configuration of the script: [semilogy], [set_ylim(1050, 100)],
    [set_xlim(-50, 50)], and the pixel box of [add_subplot(111)] in a
    10 x 10 inch figure at 100 dpi. *)
Definition script_state : AxesState :=
  MkAxesState (MkBbox (-50) 1050 50 100) (MkBbox 125 110 900 880)
              LinearScale LogScale.

(** The same with the abscissa limits reversed, and with zero width. *)
Definition reversed_state : AxesState :=
  MkAxesState (MkBbox 50 1050 (-50) 100) (MkBbox 125 110 900 880)
              LinearScale LogScale.

Definition zero_width_state : AxesState :=
  MkAxesState (MkBbox 20 1050 20 100) (MkBbox 125 110 900 880)
              LinearScale LogScale.

(** A state with a logarithmic abscissa over [1, 100]. *)
Definition log_abscissa_state : AxesState :=
  MkAxesState (MkBbox 1 1050 100 100) (MkBbox 125 110 900 880)
              LogScale LogScale.

(** An axes object before its transforms are set, and the object that
    [_set_lim_and_transforms] makes of it. *)
Definition blank (s : AxesState) : SkewXAxes.t :=
  SkewXAxes.Make s IdentityTransform IdentityTransform IdentityTransform
    IdentityTransform IdentityTransform IdentityTransform.

Definition built (s : AxesState) : SkewXAxes.t :=
  match SkewXAxes._set_lim_and_transforms (blank s) with
  | Ok self => self
  | Halt _ => blank s
  end.

(** Whether a tick at [loc] passes the test against [interval]: a tick
    with no location passes every test. *)
Definition eligible (interval : R * R) (loc : option R) : bool :=
  match loc with
  | None => true
  | Some val => interval_contains interval val
  end.

(** A tick as [SkewXAxis._get_tick] creates it ([loc] is [None]; the
    flags are the defaults of [XTick.__init__], with the grid switched
    on as [plt.grid(True)] does), and the same tick placed at [loc]. *)
Definition fresh_tick : SkewXTick.t :=
  SkewXTick.Make None true true true true false.

Definition tick_at (loc : R) : SkewXTick.t :=
  SkewXTick.update_position fresh_tick (Some loc).

(** ** Basic facts: matrices and scales *)

Arguments Mtx.inv : simpl never.
Arguments Mtx.apply : simpl never.
Arguments Mtx.skew_deg : simpl never.
Arguments matrix_from : simpl never.

Lemma matrix_eq (a b c d e f a' b' c' d' e' f' : R) :
  a = a' -> b = b' -> c = c' -> d = d' -> e = e' -> f = f' ->
  Matrix a b c d e f = Matrix a' b' c' d' e' f'.
Proof. intros; subst; reflexivity. Qed.

Lemma Ok_pair_eq (a b c d : R) :
  a = c -> b = d -> @Ok (R * R) (a, b) = Ok (c, d).
Proof. intros; subst; reflexivity. Qed.

Lemma skew_matrix :
  Mtx.skew_deg SkewXAxes.rot 0 Mtx.identity = Matrix 1 shear 0 0 1 0.
Proof.
  unfold Mtx.skew_deg, Mtx.skew, Mtx.dot, Mtx.identity, shear. simpl.
  replace (Mtx.radians 0) with 0 by (unfold Mtx.radians; lra).
  rewrite tan_0. apply matrix_eq; ring.
Qed.

Lemma radians_rot : Mtx.radians SkewXAxes.rot = PI / 6.
Proof. unfold Mtx.radians, SkewXAxes.rot. lra. Qed.

Lemma shear_pos : 0 < shear.
Proof.
  unfold shear. rewrite radians_rot.
  apply tan_gt_0; [apply PI6_RGT_0 | apply PI6_RLT_PI2].
Qed.

Lemma inv_skew (s : R) :
  Mtx.inv (Matrix 1 s 0 0 1 0) = Ok (Matrix 1 (- s) 0 0 1 0).
Proof.
  unfold Mtx.inv, Mtx.det. simpl.
  destruct (Req_dec_T (1 * 1 - s * 0) 0) as [E | _]; [exfalso; lra |].
  f_equal. apply matrix_eq; field.
Qed.

Lemma matrix_from_ok (b : Bbox) :
  width b <> 0 -> height b <> 0 ->
  matrix_from b = Ok (Matrix (1 / width b) 0 (- bx0 b * (1 / width b))
                             0 (1 / height b) (- by0 b * (1 / height b))).
Proof.
  intros Hw Hh. unfold matrix_from.
  destruct (Req_dec_T (width b) 0); [contradiction |].
  destruct (Req_dec_T (height b) 0); [contradiction |].
  reflexivity.
Qed.

Lemma matrix_from_halt (b : Bbox) :
  width b = 0 \/ height b = 0 -> matrix_from b = Halt NonFinite.
Proof.
  intros H. unfold matrix_from.
  destruct (Req_dec_T (width b) 0); [reflexivity |].
  destruct (Req_dec_T (height b) 0); [reflexivity |].
  destruct H; contradiction.
Qed.

Lemma matrix_from_inv (b : Bbox) (m : matrix) :
  matrix_from b = Ok m ->
  width b <> 0 /\ height b <> 0 /\ Mtx.inv m = Ok (matrix_to b).
Proof.
  unfold matrix_from.
  destruct (Req_dec_T (width b) 0) as [| Hw]; [discriminate |].
  destruct (Req_dec_T (height b) 0) as [| Hh]; [discriminate |].
  intros H. injection H as <-. repeat split; trivial.
  unfold Mtx.inv, Mtx.det, matrix_to. simpl.
  destruct (Req_dec_T _ 0) as [E | _].
  - exfalso. apply Rminus_diag_uniq in E.
    assert (1 / width b * (1 / height b) <> 0).
    { apply Rmult_integral_contrapositive_currified;
        unfold Rdiv; rewrite Rmult_1_l; apply Rinv_neq_0_compat; assumption. }
    lra.
  - f_equal. apply matrix_eq; field; split; assumption.
Qed.

Lemma ln_10_pos : 0 < ln 10.
Proof. rewrite <- ln_1. apply ln_increasing; lra. Qed.

Lemma log10_pow10 (v : R) : log10 (pow10 v) = v.
Proof.
  unfold log10, pow10. rewrite ln_exp. field.
  apply Rgt_not_eq, ln_10_pos.
Qed.

Lemma pow10_log10 (v : R) : 0 < v -> pow10 (log10 v) = v.
Proof.
  intros H. unfold log10, pow10.
  replace (ln v / ln 10 * ln 10) with (ln v)
    by (field; apply Rgt_not_eq, ln_10_pos).
  apply exp_ln, H.
Qed.

Lemma log10_inj (a b : R) : 0 < a -> 0 < b -> log10 a = log10 b -> a = b.
Proof.
  intros Ha Hb H. rewrite <- (pow10_log10 a Ha), <- (pow10_log10 b Hb).
  now rewrite H.
Qed.

Lemma log10_clip_pos (v : R) : 0 < v -> log10_clip v = log10 v.
Proof.
  intros H. unfold log10_clip.
  destruct (Rle_dec v 0); [exfalso; lra | reflexivity].
Qed.

Lemma log10_clip_nonpos (v : R) : v <= 0 -> log10_clip v = -1000.
Proof.
  intros H. unfold log10_clip.
  destruct (Rle_dec v 0); [reflexivity | contradiction].
Qed.

Lemma scale_forward_backward (s : scale) (v : R) :
  scale_forward s (scale_backward s v) = v.
Proof.
  destruct s; simpl; [reflexivity |].
  rewrite log10_clip_pos; [apply log10_pow10 | unfold pow10; apply exp_pos].
Qed.

Lemma scale_backward_forward (s : scale) (v : R) :
  in_domain s v -> scale_backward s (scale_forward s v) = v.
Proof.
  destruct s; simpl; [reflexivity |].
  intros H. rewrite (log10_clip_pos _ H). apply pow10_log10, H.
Qed.

Lemma scale_forward_inj (s : scale) (a b : R) :
  in_domain s a -> in_domain s b ->
  scale_forward s a = scale_forward s b -> a = b.
Proof.
  destruct s; simpl; [trivial |].
  intros Ha Hb. rewrite (log10_clip_pos _ Ha), (log10_clip_pos _ Hb).
  now apply log10_inj.
Qed.

Lemma nondegenerate_scaled (s : AxesState) :
  nondegenerate s ->
  width (scaled_viewLim s) <> 0 /\ height (scaled_viewLim s) <> 0.
Proof.
  intros (Hx0 & Hx1 & Hy0 & Hy1 & Hx & Hy).
  unfold width, height, scaled_viewLim; simpl. split; intros E.
  - apply Hx. symmetry.
    apply (scale_forward_inj (xscale s)); trivial. lra.
  - apply Hy. symmetry.
    apply (scale_forward_inj (yscale s)); trivial. lra.
Qed.

(** ** Evaluation of the transform stack *)

Section Stack.

Variable s : AxesState.

Local Open Scope result_scope.

Lemma scaled_viewLim_points :
  get_points s (TransformedBbox ViewLim TransformWrapper_scale)
  = Ok (scaled_viewLim s).
Proof. reflexivity. Qed.

(** [transScale] wraps the blend of the two scales' transforms. *)
Lemma wrapper_is_blend (p : point) :
  transform s TransformWrapper_scale p
  = transform s (BlendedGenericTransform (scale_transform (xscale s))
                                         (scale_transform (yscale s))) p.
Proof.
  cbn [transform]. destruct (xscale s), (yscale s); reflexivity.
Qed.

Lemma normalize_eq (p : point) :
  normalize s p =
  (m <- matrix_from (scaled_viewLim s) ;;
   Ok (Mtx.apply m (scale_forward (xscale s) (fst p),
                    scale_forward (yscale s) (snd p)))).
Proof. reflexivity. Qed.

Lemma skew_stack_forward (p : point) :
  transform s skew_stack p =
  (n <- normalize s p ;; Ok (fst n + shear * snd n, snd n)).
Proof.
  unfold skew_stack, normalize.
  cbn [transform bind]. rewrite skew_matrix.
  destruct (get_points s _) as [bb |]; cbn [bind]; [| reflexivity].
  destruct (matrix_from bb) as [m |]; cbn [bind]; [| reflexivity].
  unfold Mtx.apply; simpl. f_equal. f_equal; ring.
Qed.

Lemma skew_stack_inverted :
  inverted s skew_stack =
  (m <- matrix_from (scaled_viewLim s) ;;
   Ok (skew_stack_inverse s (scaled_viewLim s))).
Proof.
  unfold skew_stack, skew_stack_inverse.
  cbn [inverted bind get_points]. rewrite skew_matrix, inv_skew.
  cbn [bind transform fst snd].
  fold (scaled_viewLim s).
  destruct (matrix_from (scaled_viewLim s)) as [m |] eqn:E;
    cbn [bind]; [| reflexivity].
  apply matrix_from_inv in E. destruct E as (_ & _ & ->). reflexivity.
Qed.

Lemma transform_composite (a b : Transform) (p : point) :
  transform s (a + b) p = bind (transform s a p) (transform s b).
Proof. reflexivity. Qed.

Lemma transform_affine (m : matrix) (p : point) :
  transform s (Affine2D m) p = Ok (Mtx.apply m p).
Proof. reflexivity. Qed.

Lemma blended_scale_inverted (p : point) :
  transform s (BlendedGenericTransform (scale_inverted (xscale s))
                                       (scale_inverted (yscale s))) p
  = Ok (scale_backward (xscale s) (fst p),
        scale_backward (yscale s) (snd p)).
Proof. destruct (xscale s), (yscale s); reflexivity. Qed.

Lemma skew_stack_inverse_apply (b : Bbox) (p : point) :
  transform s (skew_stack_inverse s b) p =
  Ok (scale_backward (xscale s)
        (bx0 b + (fst p - shear * snd p) * width b),
      scale_backward (yscale s) (by0 b + snd p * height b)).
Proof.
  unfold skew_stack_inverse.
  rewrite transform_composite, transform_affine. cbn [bind].
  rewrite transform_composite, transform_affine. cbn [bind].
  rewrite blended_scale_inverted.
  unfold Mtx.apply, matrix_to; simpl. f_equal. f_equal; f_equal; ring.
Qed.

End Stack.

Lemma built_fields (ax0 ax1 : SkewXAxes.t) :
  SkewXAxes._set_lim_and_transforms ax0 = Ok ax1 ->
  SkewXAxes.state ax1 = SkewXAxes.state ax0 /\
  SkewXAxes.transScale ax1 = TransformWrapper_scale /\
  SkewXAxes.transLimits ax1
    = BboxTransformFrom (TransformedBbox ViewLim TransformWrapper_scale) /\
  SkewXAxes.transAxes ax1 = BboxTransformTo AxesBbox /\
  SkewXAxes.transDataToAxes ax1 = skew_stack /\
  SkewXAxes.transData ax1 = (skew_stack + BboxTransformTo AxesBbox)%transform.
Proof.
  unfold SkewXAxes._set_lim_and_transforms; simpl.
  intros H; injection H as <-. simpl. repeat split.
Qed.

(** The upper interval of a built axes object, whatever its state. *)
Lemma upper_xlim_eval (ax0 ax1 : SkewXAxes.t) (s : AxesState) :
  SkewXAxes._set_lim_and_transforms ax0 = Ok ax1 ->
  SkewXAxes.upper_xlim (at_state ax1 s) =
  bind (matrix_from (scaled_viewLim s)) (fun _ =>
    let b := scaled_viewLim s in
    Ok (scale_backward (xscale s) (bx0 b + (0 - shear * 1) * width b),
        scale_backward (xscale s) (bx0 b + (1 - shear * 1) * width b))).
Proof.
  intros H. apply built_fields in H. destruct H as (_ & _ & _ & _ & Hd & _).
  unfold SkewXAxes.upper_xlim, at_state; simpl. rewrite Hd.
  rewrite skew_stack_inverted.
  destruct (matrix_from (scaled_viewLim s)); cbn [bind]; [| reflexivity].
  rewrite !skew_stack_inverse_apply. reflexivity.
Qed.

Lemma upper_xlim_linear (ax0 ax1 : SkewXAxes.t) (s : AxesState) :
  SkewXAxes._set_lim_and_transforms ax0 = Ok ax1 ->
  nondegenerate s -> xscale s = LinearScale ->
  SkewXAxes.upper_xlim (at_state ax1 s) =
  Ok (bx0 (viewLim s) - shear * width (viewLim s),
      bx1 (viewLim s) - shear * width (viewLim s)).
Proof.
  intros H Hn Hx. rewrite (upper_xlim_eval _ _ _ H).
  destruct (nondegenerate_scaled _ Hn) as [Hw Hh].
  rewrite (matrix_from_ok _ Hw Hh). cbn [bind].
  unfold scaled_viewLim, width; rewrite Hx; simpl.
  f_equal. f_equal; ring.
Qed.

(** ** The inverse really inverts *)

Ltac fold_scaled :=
  repeat match goal with
  | |- context [scale_forward (xscale ?s) (bx0 (viewLim ?s))] =>
      change (scale_forward (xscale s) (bx0 (viewLim s)))
        with (bx0 (scaled_viewLim s))
  | |- context [scale_forward (yscale ?s) (by0 (viewLim ?s))] =>
      change (scale_forward (yscale s) (by0 (viewLim s)))
        with (by0 (scaled_viewLim s))
  end.

Section RoundTrip.

Variable s : AxesState.
Hypothesis Hw : width (scaled_viewLim s) <> 0.
Hypothesis Hh : height (scaled_viewLim s) <> 0.

Lemma forward_after_inverse (p q : point) :
  transform s (skew_stack_inverse s (scaled_viewLim s)) p = Ok q ->
  transform s skew_stack q = Ok p.
Proof.
  rewrite skew_stack_inverse_apply. intros E; injection E as <-.
  rewrite skew_stack_forward, normalize_eq, (matrix_from_ok _ Hw Hh).
  cbn [bind fst snd]. rewrite !scale_forward_backward.
  unfold Mtx.apply; cbn [xx xy x0 yx yy y0 fst snd].
  destruct p as [a b]; cbn [fst snd].
  fold_scaled. apply Ok_pair_eq; field; repeat split; assumption.
Qed.

Lemma inverse_after_forward (p : point) :
  in_domain (xscale s) (fst p) -> in_domain (yscale s) (snd p) ->
  exists q, transform s skew_stack p = Ok q /\
            transform s (skew_stack_inverse s (scaled_viewLim s)) q = Ok p.
Proof.
  intros Dx Dy.
  rewrite skew_stack_forward, normalize_eq, (matrix_from_ok _ Hw Hh).
  cbn [bind]. eexists; split; [reflexivity |].
  rewrite skew_stack_inverse_apply.
  unfold Mtx.apply; cbn [xx xy x0 yx yy y0 fst snd].
  destruct p as [a b]; cbn [fst snd] in *.
  fold_scaled. apply Ok_pair_eq.
  - transitivity (scale_backward (xscale s) (scale_forward (xscale s) a));
      [f_equal; field; repeat split; assumption
      | apply scale_backward_forward, Dx].
  - transitivity (scale_backward (yscale s) (scale_forward (yscale s) b));
      [f_equal; field; repeat split; assumption
      | apply scale_backward_forward, Dy].
Qed.

End RoundTrip.

(** ** Facts about the example states *)

Lemma built_ok (s : AxesState) :
  SkewXAxes._set_lim_and_transforms (blank s) = Ok (built s).
Proof. reflexivity. Qed.

Lemma at_state_built (s s' : AxesState) : at_state (built s) s' = built s'.
Proof. reflexivity. Qed.

Lemma script_state_nondegenerate : nondegenerate script_state.
Proof. unfold nondegenerate, script_state; simpl. repeat split; lra. Qed.

Lemma reversed_state_nondegenerate : nondegenerate reversed_state.
Proof. unfold nondegenerate, reversed_state; simpl. repeat split; lra. Qed.

Lemma script_state_inverted :
  inverted script_state skew_stack
  = Ok (skew_stack_inverse script_state (scaled_viewLim script_state)).
Proof.
  rewrite skew_stack_inverted.
  destruct (nondegenerate_scaled _ script_state_nondegenerate) as [Hw Hh].
  rewrite (matrix_from_ok _ Hw Hh). reflexivity.
Qed.

(** ** The upper interval *)

(** C1.  Once the transforms are set ([_set_lim_and_transforms]), and
    whatever the state [s] of the axes at the time of the access:
    [transDataToAxes] is the scale, then the limits normalisation, then
    the skew of 30 degrees, and if
    [transDataToAxes.inverted()] returns the transform [inv], then [inv]
    maps the two points (0,1) and (1,1) to points [p0] and [p1] that
    [transDataToAxes] maps back to (0,1) and (1,1), and [upper_xlim] is
    the pair of the abscissas of [p0] and [p1], in this order.  The
    value is computed from [s], the state at the time of the access. *)
Theorem upper_xlim_inverse_image
    (ax0 ax1 : SkewXAxes.t) (s : AxesState) (inv : Transform) :
  SkewXAxes._set_lim_and_transforms ax0 = Ok ax1 ->
  inverted s (SkewXAxes.transDataToAxes (at_state ax1 s)) = Ok inv ->
  SkewXAxes.transDataToAxes (at_state ax1 s)
    = (SkewXAxes.transScale (at_state ax1 s)
       + SkewXAxes.transLimits (at_state ax1 s)
       + Affine2D (Mtx.skew_deg 30 0 Mtx.identity))%transform /\
  exists p0 p1 : point,
    transform s inv (0, 1) = Ok p0 /\
    transform s inv (1, 1) = Ok p1 /\
    transform s (SkewXAxes.transDataToAxes (at_state ax1 s)) p0 = Ok (0, 1) /\
    transform s (SkewXAxes.transDataToAxes (at_state ax1 s)) p1 = Ok (1, 1) /\
    SkewXAxes.upper_xlim (at_state ax1 s) = Ok (fst p0, fst p1).
Proof.
  intros Hb Hinv.
  destruct (built_fields _ _ Hb) as (_ & Hs & Hl & _ & Hd & _).
  split.
  { unfold at_state; simpl. rewrite Hs, Hl. exact Hd. }
  unfold SkewXAxes.upper_xlim.
  replace (SkewXAxes.transDataToAxes (at_state ax1 s)) with skew_stack in *
    by (symmetry; exact Hd).
  replace (SkewXAxes.state (at_state ax1 s)) with s by reflexivity.
  rewrite Hinv. cbn [bind].
  rewrite skew_stack_inverted in Hinv.
  destruct (matrix_from (scaled_viewLim s)) as [m |] eqn:Em;
    cbn [bind] in Hinv; [| discriminate].
  injection Hinv as <-.
  destruct (matrix_from_inv _ _ Em) as (Hw & Hh & _).
  destruct (transform s (skew_stack_inverse s (scaled_viewLim s)) (0, 1))
    as [p0 |] eqn:E0; [| rewrite skew_stack_inverse_apply in E0; discriminate].
  destruct (transform s (skew_stack_inverse s (scaled_viewLim s)) (1, 1))
    as [p1 |] eqn:E1; [| rewrite skew_stack_inverse_apply in E1; discriminate].
  exists p0, p1. cbn [bind].
  repeat split; trivial; now apply forward_after_inverse.
Qed.

Lemma upper_xlim_inverse_image_witness :
  SkewXAxes.transDataToAxes (at_state (built script_state) script_state)
    = (SkewXAxes.transScale (at_state (built script_state) script_state)
       + SkewXAxes.transLimits (at_state (built script_state) script_state)
       + Affine2D (Mtx.skew_deg 30 0 Mtx.identity))%transform /\
  exists p0 p1 : point,
    transform script_state
      (skew_stack_inverse script_state (scaled_viewLim script_state)) (0, 1)
      = Ok p0 /\
    transform script_state
      (skew_stack_inverse script_state (scaled_viewLim script_state)) (1, 1)
      = Ok p1 /\
    transform script_state
      (SkewXAxes.transDataToAxes (at_state (built script_state) script_state))
      p0 = Ok (0, 1) /\
    transform script_state
      (SkewXAxes.transDataToAxes (at_state (built script_state) script_state))
      p1 = Ok (1, 1) /\
    SkewXAxes.upper_xlim (at_state (built script_state) script_state)
      = Ok (fst p0, fst p1).
Proof.
  apply (upper_xlim_inverse_image (blank script_state) (built script_state)
           script_state).
  - reflexivity.
  - exact script_state_inverted.
Defined.

(** After an access at state [s] the limits may change again: the next
    access follows them, and the pair comes in the order of the limits,
    so it is decreasing when the limits are. *)
Lemma upper_xlim_follows_limits
    (ax0 ax1 : SkewXAxes.t) (s : AxesState) (l r : R) :
  SkewXAxes._set_lim_and_transforms ax0 = Ok ax1 ->
  nondegenerate s -> xscale s = LinearScale -> l <> r ->
  SkewXAxes.upper_xlim (SkewXAxes.set_intervalx (at_state ax1 s) l r)
  = Ok (l - shear * (r - l), r - shear * (r - l)).
Proof.
  intros Hb (Hx0 & Hx1 & Hy0 & Hy1 & Hx & Hy) Hlin Hlr.
  change (SkewXAxes.set_intervalx (at_state ax1 s) l r)
    with (at_state ax1
            (MkAxesState (MkBbox l (by0 (viewLim s)) r (by1 (viewLim s)))
                         (bbox s) (xscale s) (yscale s))).
  rewrite (upper_xlim_linear _ _ _ Hb); [reflexivity | | exact Hlin].
  unfold nondegenerate; simpl. rewrite Hlin; simpl. repeat split; trivial.
Qed.

Lemma upper_xlim_not_sorted :
  exists lo hi : R,
    SkewXAxes.upper_xlim (built reversed_state) = Ok (lo, hi) /\ hi < lo.
Proof.
  exists (50 - shear * (-50 - 50)), (-50 - shear * (-50 - 50)). split.
  - rewrite <- (at_state_built reversed_state reversed_state).
    rewrite (upper_xlim_linear _ _ _ (built_ok reversed_state)
               reversed_state_nondegenerate eq_refl).
    reflexivity.
  - lra.
Qed.

(** ** The place of the shear in the stack *)

(** C2.  [transDataToAxes] is the scale, then the limits normalisation,
    then the skew of 30 degrees; [transData] is [transDataToAxes], then
    the viewport transform [transAxes].  If the first two steps send the
    data points [p1] and [p2] to the normalised points [n1] and [n2],
    with the same ordinate, then [transDataToAxes] keeps the ordinates
    and moves both abscissas by the same amount, the common ordinate
    times the tangent of 30 degrees; the viewport transform is applied
    to the sheared points. *)
Theorem shear_between_limits_and_viewport
    (ax0 ax1 : SkewXAxes.t) (s : AxesState) (p1 p2 n1 n2 : point) :
  SkewXAxes._set_lim_and_transforms ax0 = Ok ax1 ->
  let ax := at_state ax1 s in
  let pre := (SkewXAxes.transScale ax + SkewXAxes.transLimits ax)%transform in
  transform s pre p1 = Ok n1 ->
  transform s pre p2 = Ok n2 ->
  snd n1 = snd n2 ->
  SkewXAxes.transDataToAxes ax
    = (pre + Affine2D (Mtx.skew_deg 30 0 Mtx.identity))%transform /\
  SkewXAxes.transData ax
    = (SkewXAxes.transDataToAxes ax + SkewXAxes.transAxes ax)%transform /\
  exists a1 a2 : point,
    transform s (SkewXAxes.transDataToAxes ax) p1 = Ok a1 /\
    transform s (SkewXAxes.transDataToAxes ax) p2 = Ok a2 /\
    fst a1 - fst n1 = snd n1 * tan (Mtx.radians 30) /\
    fst a2 - fst n2 = snd n1 * tan (Mtx.radians 30) /\
    snd a1 = snd n1 /\ snd a2 = snd n2 /\
    transform s (SkewXAxes.transData ax) p1
      = transform s (SkewXAxes.transAxes ax) a1 /\
    transform s (SkewXAxes.transData ax) p2
      = transform s (SkewXAxes.transAxes ax) a2.
Proof.
  intros Hb ax pre H1 H2 Hy.
  destruct (built_fields _ _ Hb) as (_ & Hs & Hl & Ha & Hd & Ht).
  assert (Hpre : pre = (TransformWrapper_scale
            + BboxTransformFrom (TransformedBbox ViewLim TransformWrapper_scale))%transform).
  { unfold pre, ax, at_state; simpl. now rewrite Hs, Hl. }
  assert (Hda : SkewXAxes.transDataToAxes ax = skew_stack) by exact Hd.
  assert (Hta : SkewXAxes.transData ax
                = (skew_stack + SkewXAxes.transAxes ax)%transform).
  { unfold ax, at_state; simpl. now rewrite Ht, Ha. }
  rewrite Hpre in H1, H2. fold (normalize s p1) in H1. fold (normalize s p2) in H2.
  split; [rewrite Hda, Hpre; reflexivity |].
  split; [rewrite Hta, Hda; reflexivity |].
  exists (fst n1 + shear * snd n1, snd n1), (fst n2 + shear * snd n2, snd n2).
  rewrite Hta, Hda, !transform_composite, !skew_stack_forward, H1, H2.
  cbn [bind fst snd]. fold shear. rewrite <- Hy.
  repeat split; try reflexivity; unfold shear, SkewXAxes.rot; ring.
Qed.

Lemma shear_between_limits_and_viewport_witness :
  exists a1 a2 : point,
    transform script_state (SkewXAxes.transDataToAxes (built script_state))
      (-50, 100) = Ok a1 /\
    transform script_state (SkewXAxes.transDataToAxes (built script_state))
      (50, 100) = Ok a2 /\
    fst a1 - 0 = 1 * tan (Mtx.radians 30) /\
    fst a2 - 1 = 1 * tan (Mtx.radians 30) /\
    snd a1 = 1 /\ snd a2 = 1.
Proof.
  assert (Hw : width (scaled_viewLim script_state) <> 0)
    by apply (nondegenerate_scaled _ script_state_nondegenerate).
  assert (Hh : height (scaled_viewLim script_state) <> 0)
    by apply (nondegenerate_scaled _ script_state_nondegenerate).
  assert (N : forall x : R,
    transform script_state
      (TransformWrapper_scale
       + BboxTransformFrom (TransformedBbox ViewLim TransformWrapper_scale))
      (x, 100) = Ok ((x + 50) / 100, 1)).
  { intros x. fold (normalize script_state (x, 100)).
    rewrite normalize_eq, (matrix_from_ok _ Hw Hh). cbn [bind].
    unfold Mtx.apply; cbn [xx xy x0 yx yy y0 fst snd].
    unfold height, width in *. simpl in *. apply Ok_pair_eq; field; lra. }
  destruct (shear_between_limits_and_viewport
              (blank script_state) (built script_state) script_state
              (-50, 100) (50, 100) (0, 1) (1, 1) eq_refl)
    as (_ & _ & a1 & a2 & E1 & E2 & D1 & D2 & Y1 & Y2 & _).
  - etransitivity; [exact (N (-50)) | apply Ok_pair_eq; lra].
  - etransitivity; [exact (N 50) | apply Ok_pair_eq; lra].
  - reflexivity.
  - exists a1, a2. repeat split; assumption.
Defined.

(** ** Containment in an interval *)

Lemma Rleb_true (a b : R) : Rleb a b = true <-> a <= b.
Proof.
  unfold Rleb. destruct (Rle_dec a b); split; intros;
    trivial; try discriminate; contradiction.
Qed.

Lemma Rgtb_true (a b : R) : Rgtb a b = true <-> a > b.
Proof.
  unfold Rgtb. destruct (Rgt_dec a b); split; intros;
    trivial; try discriminate; contradiction.
Qed.

Lemma interval_contains_spec (a b val : R) :
  interval_contains (a, b) val = true <->
  Rmin a b <= val <= Rmax a b.
Proof.
  unfold interval_contains, Rgtb.
  destruct (Rgt_dec a b) as [G | G];
    rewrite andb_true_iff, !Rleb_true.
  - rewrite Rmin_right, Rmax_left by lra. tauto.
  - rewrite Rmin_left, Rmax_right by lra. tauto.
Qed.

(** The older wording of the library,
    [a <= val <= b or a >= val >= b], decides the same. *)
Lemma interval_contains_either_order (a b val : R) :
  interval_contains (a, b) val = true <->
  (a <= val <= b) \/ (b <= val <= a).
Proof.
  rewrite interval_contains_spec.
  unfold Rmin, Rmax. destruct (Rle_dec a b); lra.
Qed.

Lemma interval_contains_bounds (a b : R) :
  interval_contains (a, b) a = true /\ interval_contains (a, b) b = true.
Proof.
  split; apply interval_contains_either_order; lra.
Qed.

Lemma interval_contains_false (a b val : R) :
  val < Rmin a b \/ Rmax a b < val -> interval_contains (a, b) val = false.
Proof.
  intros H. apply not_true_is_false. rewrite interval_contains_spec. lra.
Qed.

(** ** Tick visibility *)

Lemma py_and_ok (x y : bool) : py_and x (Ok y) = Ok (x && y).
Proof. destruct x; reflexivity. Qed.

Lemma need_lower_at (axes : SkewXAxes.t) (tick : SkewXTick.t) (loc : R) :
  SkewXTick.get_loc tick = Some loc ->
  SkewXTick._need_lower axes tick
  = Ok (interval_contains (SkewXAxes.lower_xlim axes) loc).
Proof.
  intros H. unfold SkewXTick._need_lower, SkewXTick._has_default_loc.
  rewrite H. reflexivity.
Qed.

Lemma need_upper_at (axes : SkewXAxes.t) (tick : SkewXTick.t)
    (loc : R) (upper : R * R) :
  SkewXTick.get_loc tick = Some loc ->
  SkewXAxes.upper_xlim axes = Ok upper ->
  SkewXTick._need_upper axes tick = Ok (interval_contains upper loc).
Proof.
  intros H Hu. unfold SkewXTick._need_upper, SkewXTick._has_default_loc.
  rewrite H, Hu. reflexivity.
Qed.

Lemma script_upper_xlim :
  SkewXAxes.upper_xlim (built script_state)
  = Ok (-50 - shear * 100, 50 - shear * 100).
Proof.
  rewrite <- (at_state_built script_state script_state).
  rewrite (upper_xlim_linear _ _ _ (built_ok script_state)
             script_state_nondegenerate eq_refl).
  unfold width; simpl. apply Ok_pair_eq; ring.
Qed.

(** C3.  For a tick placed at [loc]: [tick1On] and [label1On] are the
    stored flag [_tick1On], respectively [_label1On], and the
    containment of [loc] in [lower_xlim]; [tick2On] and [label2On] are
    the stored flag [_tick2On], respectively [_label2On], and the
    containment of [loc] in [upper_xlim].  Containment includes both
    bounds: a tick at a bound of the lower interval needs the lower
    edge. *)
Theorem edge_visibility_is_flag_and_containment
    (axes : SkewXAxes.t) (tick : SkewXTick.t) (loc : R) (upper : R * R) :
  SkewXTick.get_loc tick = Some loc ->
  SkewXAxes.upper_xlim axes = Ok upper ->
  let lower := SkewXAxes.lower_xlim axes in
  SkewXTick.tick1On axes tick
    = Ok (SkewXTick._tick1On tick && interval_contains lower loc) /\
  SkewXTick.label1On axes tick
    = Ok (SkewXTick._label1On tick && interval_contains lower loc) /\
  SkewXTick.tick2On axes tick
    = Ok (SkewXTick._tick2On tick && interval_contains upper loc) /\
  SkewXTick.label2On axes tick
    = Ok (SkewXTick._label2On tick && interval_contains upper loc) /\
  (interval_contains lower loc = true <->
   Rmin (fst lower) (snd lower) <= loc <= Rmax (fst lower) (snd lower)) /\
  (interval_contains upper loc = true <->
   Rmin (fst upper) (snd upper) <= loc <= Rmax (fst upper) (snd upper)) /\
  (loc = fst lower \/ loc = snd lower ->
   SkewXTick._need_lower axes tick = Ok true) /\
  (loc = fst upper \/ loc = snd upper ->
   SkewXTick._need_upper axes tick = Ok true).
Proof.
  intros Hloc Hup lower.
  unfold SkewXTick.tick1On, SkewXTick.label1On,
    SkewXTick.tick2On, SkewXTick.label2On.
  rewrite (need_lower_at _ _ _ Hloc), (need_upper_at _ _ _ _ Hloc Hup).
  fold lower. rewrite !py_and_ok.
  destruct lower as [a b], upper as [c d]; cbn [fst snd].
  split; [reflexivity |]. split; [reflexivity |].
  split; [reflexivity |]. split; [reflexivity |].
  split; [apply interval_contains_spec |].
  split; [apply interval_contains_spec |].
  split; intros [-> | ->]; f_equal; apply interval_contains_bounds.
Qed.

Lemma edge_visibility_is_flag_and_containment_witness :
  SkewXTick.tick1On (built script_state) (tick_at 50) = Ok true /\
  SkewXTick.label2On (built script_state) (tick_at 50) = Ok false /\
  SkewXTick._need_lower (built script_state) (tick_at 50) = Ok true.
Proof.
  destruct (edge_visibility_is_flag_and_containment
              (built script_state) (tick_at 50) 50
              (-50 - shear * 100, 50 - shear * 100) eq_refl script_upper_xlim)
    as (T1 & _ & _ & L2 & _ & _ & B & _).
  split; [| split].
  - rewrite T1. f_equal. apply interval_contains_bounds.
  - rewrite L2. reflexivity.
  - apply B. right. reflexivity.
Defined.

Lemma Ok_inj {A : Type} (a b : A) : Ok a = Ok b <-> a = b.
Proof. split; [intros H; now injection H | intros ->; reflexivity]. Qed.

Lemma py_and_true (x : bool) : py_and x (Ok true) = Ok x.
Proof. destruct x; reflexivity. Qed.

(** C7.  A tick with no location needs the lower edge and the upper
    edge whatever the axes' state is, also one in which the upper
    interval cannot be computed; each of its five visibilities is then
    the stored flag. *)
Theorem default_loc_always_eligible
    (axes : SkewXAxes.t) (tick : SkewXTick.t) :
  SkewXTick.get_loc tick = None ->
  SkewXTick._need_lower axes tick = Ok true /\
  SkewXTick._need_upper axes tick = Ok true /\
  SkewXTick.tick1On axes tick = Ok (SkewXTick._tick1On tick) /\
  SkewXTick.label1On axes tick = Ok (SkewXTick._label1On tick) /\
  SkewXTick.tick2On axes tick = Ok (SkewXTick._tick2On tick) /\
  SkewXTick.label2On axes tick = Ok (SkewXTick._label2On tick) /\
  SkewXTick.gridOn axes tick = Ok (SkewXTick._gridOn tick).
Proof.
  intros H.
  assert (D : SkewXTick._has_default_loc tick = true)
    by (unfold SkewXTick._has_default_loc; now rewrite H).
  assert (L : SkewXTick._need_lower axes tick = Ok true)
    by (unfold SkewXTick._need_lower; now rewrite D).
  assert (U : SkewXTick._need_upper axes tick = Ok true)
    by (unfold SkewXTick._need_upper; now rewrite D).
  unfold SkewXTick.tick1On, SkewXTick.label1On, SkewXTick.tick2On,
    SkewXTick.label2On, SkewXTick.gridOn.
  rewrite L, U, D. cbn [py_or]. rewrite !py_and_true.
  repeat split.
Qed.

Lemma default_loc_always_eligible_witness :
  SkewXTick._need_lower (built zero_width_state) fresh_tick = Ok true /\
  SkewXTick._need_upper (built zero_width_state) fresh_tick = Ok true /\
  SkewXTick._need_upper (built script_state) fresh_tick = Ok true.
Proof.
  split; [| split].
  - apply (default_loc_always_eligible (built zero_width_state) fresh_tick).
    reflexivity.
  - apply (default_loc_always_eligible (built zero_width_state) fresh_tick).
    reflexivity.
  - apply (default_loc_always_eligible (built script_state) fresh_tick).
    reflexivity.
Defined.

(** ** The gridline and the axis' view interval *)

Lemma view_interval_eval (axes : SkewXAxes.t) (upper : R * R) :
  SkewXAxes.upper_xlim axes = Ok upper ->
  SkewXAxis.get_view_interval axes
  = Ok (fst upper, snd (SkewXAxes.lower_xlim axes)).
Proof. intros H. unfold SkewXAxis.get_view_interval. now rewrite H. Qed.

Lemma gridOn_eval (axes : SkewXAxes.t) (tick : SkewXTick.t) (upper : R * R) :
  SkewXAxes.upper_xlim axes = Ok upper ->
  SkewXTick.gridOn axes tick
  = Ok (SkewXTick._gridOn tick
        && eligible (fst upper, snd (SkewXAxes.lower_xlim axes))
                    (SkewXTick.get_loc tick)).
Proof.
  intros H. unfold SkewXTick.gridOn, SkewXTick.get_view_interval,
    SkewXTick._has_default_loc, SkewXTick.contains_loc.
  rewrite (view_interval_eval _ _ H). cbn [bind].
  destruct (SkewXTick.get_loc tick); cbn [py_or eligible];
    apply py_and_ok.
Qed.

(** C4.  [SkewXAxis.get_view_interval] is the pair
    [(upper_xlim[0], lower_xlim[1])], the tick reads this very interval,
    and the gridline is visible exactly when the stored flag [_gridOn]
    is set and the tick has no location or its location lies in that
    interval. *)
Theorem gridline_uses_combined_interval
    (axes : SkewXAxes.t) (tick : SkewXTick.t) (upper : R * R) :
  SkewXAxes.upper_xlim axes = Ok upper ->
  let combined := (fst upper, snd (SkewXAxes.lower_xlim axes)) in
  SkewXAxis.get_view_interval axes = Ok combined /\
  SkewXTick.get_view_interval axes tick = Ok combined /\
  (SkewXTick.gridOn axes tick = Ok true <->
   SkewXTick._gridOn tick = true /\
   (SkewXTick.get_loc tick = None \/
    exists loc : R, SkewXTick.get_loc tick = Some loc /\
                    interval_contains combined loc = true)) /\
  (SkewXTick.gridOn axes tick = Ok false <->
   ~ (SkewXTick._gridOn tick = true /\
      (SkewXTick.get_loc tick = None \/
       exists loc : R, SkewXTick.get_loc tick = Some loc /\
                       interval_contains combined loc = true))).
Proof.
  intros H combined.
  assert (E : eligible combined (SkewXTick.get_loc tick) = true <->
              (SkewXTick.get_loc tick = None \/
               exists loc : R, SkewXTick.get_loc tick = Some loc /\
                               interval_contains combined loc = true)).
  { destruct (SkewXTick.get_loc tick) as [loc |]; cbn [eligible]; split.
    - intros C. right. exists loc. now split.
    - intros [D | (l & D & C)]; [discriminate | now injection D as <-].
    - now left.
    - reflexivity. }
  split; [exact (view_interval_eval _ _ H) |].
  split; [exact (view_interval_eval _ _ H) |].
  rewrite (gridOn_eval _ _ _ H). fold combined. rewrite <- E, !Ok_inj.
  destruct (SkewXTick._gridOn tick), (eligible combined _); cbn [andb];
    intuition congruence.
Qed.

Lemma gridline_uses_combined_interval_witness :
  SkewXAxis.get_view_interval (built script_state)
    = Ok (-50 - shear * 100, 50) /\
  SkewXTick.gridOn (built script_state) (tick_at 0) = Ok true.
Proof.
  destruct (gridline_uses_combined_interval (built script_state) (tick_at 0)
              (-50 - shear * 100, 50 - shear * 100) script_upper_xlim)
    as (V & _ & G & _).
  split; [exact V |].
  apply G. split; [reflexivity |].
  right. exists 0. split; [reflexivity |].
  apply interval_contains_either_order. cbn [fst snd SkewXAxes.lower_xlim].
  pose proof shear_pos. simpl. lra.
Defined.

(** With a linear abscissa the combined interval spans both edges: what
    the lower or the upper interval contains, it contains. *)
Lemma combined_interval_spans_both_edges
    (ax0 ax1 : SkewXAxes.t) (s : AxesState) (val : R) :
  SkewXAxes._set_lim_and_transforms ax0 = Ok ax1 ->
  nondegenerate s -> xscale s = LinearScale ->
  exists upper combined : R * R,
    SkewXAxes.upper_xlim (at_state ax1 s) = Ok upper /\
    SkewXAxis.get_view_interval (at_state ax1 s) = Ok combined /\
    (interval_contains (SkewXAxes.lower_xlim (at_state ax1 s)) val = true \/
     interval_contains upper val = true ->
     interval_contains combined val = true).
Proof.
  intros Hb Hn Hx.
  pose proof (upper_xlim_linear _ _ _ Hb Hn Hx) as Hu.
  eexists; eexists. split; [exact Hu |].
  split; [exact (view_interval_eval _ _ Hu) |].
  unfold SkewXAxes.lower_xlim, intervalx, width, at_state;
    cbn [fst snd SkewXAxes.state].
  rewrite !interval_contains_either_order.
  pose proof shear_pos as Hs.
  destruct (Rle_or_lt (bx0 (viewLim s)) (bx1 (viewLim s))); nra.
Qed.

(** ** Setters and getters of the tick *)

Lemma need_lower_eval (axes : SkewXAxes.t) (tick : SkewXTick.t) :
  SkewXTick._need_lower axes tick
  = Ok (eligible (SkewXAxes.lower_xlim axes) (SkewXTick.get_loc tick)).
Proof.
  unfold SkewXTick._need_lower, SkewXTick._has_default_loc.
  destruct (SkewXTick.get_loc tick); reflexivity.
Qed.

Lemma need_upper_eval (axes : SkewXAxes.t) (tick : SkewXTick.t)
    (upper : R * R) :
  SkewXAxes.upper_xlim axes = Ok upper ->
  SkewXTick._need_upper axes tick
  = Ok (eligible upper (SkewXTick.get_loc tick)).
Proof.
  intros H. unfold SkewXTick._need_upper, SkewXTick._has_default_loc.
  destruct (SkewXTick.get_loc tick); cbn [py_or]; [| reflexivity].
  unfold SkewXTick.contains_loc. now rewrite H.
Qed.

(** C10.  A setter stores the value it is given and changes nothing
    else; the getter then returns this value AND the containment test of
    the tick's location against the current intervals, so it does not
    always return the value assigned: after assigning [true], the getter
    returns [false] when the location is outside the interval. *)
Theorem visibility_setter_getter
    (axes : SkewXAxes.t) (tick : SkewXTick.t) (value : bool)
    (upper : R * R) :
  SkewXAxes.upper_xlim axes = Ok upper ->
  let lower := SkewXAxes.lower_xlim axes in
  let combined := (fst upper, snd lower) in
  let loc := SkewXTick.get_loc tick in
  (SkewXTick.set_tick1On tick value
     = SkewXTick.Make loc (SkewXTick._gridOn tick) value
         (SkewXTick._label1On tick) (SkewXTick._tick2On tick)
         (SkewXTick._label2On tick) /\
   SkewXTick.set_label1On tick value
     = SkewXTick.Make loc (SkewXTick._gridOn tick) (SkewXTick._tick1On tick)
         value (SkewXTick._tick2On tick) (SkewXTick._label2On tick) /\
   SkewXTick.set_tick2On tick value
     = SkewXTick.Make loc (SkewXTick._gridOn tick) (SkewXTick._tick1On tick)
         (SkewXTick._label1On tick) value (SkewXTick._label2On tick) /\
   SkewXTick.set_label2On tick value
     = SkewXTick.Make loc (SkewXTick._gridOn tick) (SkewXTick._tick1On tick)
         (SkewXTick._label1On tick) (SkewXTick._tick2On tick) value /\
   SkewXTick.set_gridOn tick value
     = SkewXTick.Make loc value (SkewXTick._tick1On tick)
         (SkewXTick._label1On tick) (SkewXTick._tick2On tick)
         (SkewXTick._label2On tick)) /\
  (SkewXTick.tick1On axes (SkewXTick.set_tick1On tick value)
     = Ok (value && eligible lower loc) /\
   SkewXTick.label1On axes (SkewXTick.set_label1On tick value)
     = Ok (value && eligible lower loc) /\
   SkewXTick.tick2On axes (SkewXTick.set_tick2On tick value)
     = Ok (value && eligible upper loc) /\
   SkewXTick.label2On axes (SkewXTick.set_label2On tick value)
     = Ok (value && eligible upper loc) /\
   SkewXTick.gridOn axes (SkewXTick.set_gridOn tick value)
     = Ok (value && eligible combined loc)) /\
  (eligible lower loc = false ->
   SkewXTick.tick1On axes (SkewXTick.set_tick1On tick true) = Ok false /\
   SkewXTick.label1On axes (SkewXTick.set_label1On tick true) = Ok false) /\
  (eligible upper loc = false ->
   SkewXTick.tick2On axes (SkewXTick.set_tick2On tick true) = Ok false /\
   SkewXTick.label2On axes (SkewXTick.set_label2On tick true) = Ok false) /\
  (eligible combined loc = false ->
   SkewXTick.gridOn axes (SkewXTick.set_gridOn tick true) = Ok false).
Proof.
  intros H lower combined loc.
  assert (G : forall v : bool,
    (SkewXTick.tick1On axes (SkewXTick.set_tick1On tick v)
       = Ok (v && eligible lower loc) /\
     SkewXTick.label1On axes (SkewXTick.set_label1On tick v)
       = Ok (v && eligible lower loc) /\
     SkewXTick.tick2On axes (SkewXTick.set_tick2On tick v)
       = Ok (v && eligible upper loc) /\
     SkewXTick.label2On axes (SkewXTick.set_label2On tick v)
       = Ok (v && eligible upper loc) /\
     SkewXTick.gridOn axes (SkewXTick.set_gridOn tick v)
       = Ok (v && eligible combined loc))).
  { intros v.
    unfold SkewXTick.tick1On, SkewXTick.label1On, SkewXTick.tick2On,
      SkewXTick.label2On.
    rewrite !need_lower_eval, !(need_upper_eval _ _ _ H),
      (gridOn_eval _ _ _ H), !py_and_ok.
    repeat split. }
  split; [repeat split |].
  split; [apply G |].
  destruct (G true) as (T1 & L1 & T2 & L2 & Gr).
  rewrite T1, L1, T2, L2, Gr. cbn [andb].
  repeat split; congruence.
Qed.

Lemma visibility_setter_getter_witness :
  SkewXTick.tick1On (built script_state)
    (SkewXTick.set_tick1On (tick_at 60) true) = Ok false.
Proof.
  destruct (visibility_setter_getter (built script_state) (tick_at 60) true
              (-50 - shear * 100, 50 - shear * 100) script_upper_xlim)
    as (_ & _ & F & _).
  apply F. apply interval_contains_false.
  right. simpl. rewrite Rmax_right by lra. lra.
Defined.

(** ** Spines *)

(** C5.  Let [sp] be the spine that [_gen_axes_spines] stores under
    [key], with any path.  A layout pass ([_adjust_location]) on the top
    spine sets the abscissas of its two vertices to the two values of
    [upper_xlim], in their order, and keeps the ordinates.  The other
    three spines are of matplotlib's class: the bottom spine takes its
    abscissas from [viewLim.intervalx], the left and right spines take
    their ordinates from [viewLim.intervaly], and the other coordinate
    is kept. *)
Theorem top_spine_tracks_upper_interval
    (axes : SkewXAxes.t) (upper : R * R) (key : spine_type) (sp : Spine) :
  SkewXAxes.upper_xlim axes = Ok upper ->
  cls sp = cls (_gen_axes_spines key) ->
  spine_tag sp = key ->
  exists sp' : Spine,
    adjust_location axes sp = Ok sp' /\
    cls sp' = cls sp /\ spine_tag sp' = key /\
    let old := vertices sp in
    let new := vertices sp' in
    let view := viewLim (SkewXAxes.state axes) in
    match key with
    | top =>
        (fst (fst new), fst (snd new)) = upper /\
        snd (fst new) = snd (fst old) /\ snd (snd new) = snd (snd old)
    | bottom =>
        (fst (fst new), fst (snd new)) = intervalx view /\
        snd (fst new) = snd (fst old) /\ snd (snd new) = snd (snd old)
    | left | right =>
        (snd (fst new), snd (snd new)) = intervaly view /\
        fst (fst new) = fst (fst old) /\ fst (snd new) = fst (snd old)
    end.
Proof.
  destruct sp as [c t [[xa ya] [xb yb]]]; cbn [cls spine_tag vertices].
  intros Hu Hc Ht. subst t. unfold adjust_location.
  destruct key; cbn [_gen_axes_spines MSpine.linear_spine cls] in Hc;
    subst c; cbn [cls];
    unfold SkewSpine._adjust_location, MSpine._adjust_location;
    cbn [cls spine_tag vertices]; rewrite ?Hu; cbn [bind];
    eexists; (split; [reflexivity |]); cbn [cls spine_tag vertices];
    (split; [reflexivity |]); (split; [reflexivity |]);
    cbn [set_column0 set_column1 fst snd];
    repeat split; try reflexivity.
  now destruct upper.
Qed.

Lemma top_spine_tracks_upper_interval_witness :
  adjust_location (built script_state) (_gen_axes_spines top)
  = Ok (MkSpine SkewSpine_cls top
          ((-50 - shear * 100, 1), (50 - shear * 100, 1))).
Proof.
  destruct (top_spine_tracks_upper_interval (built script_state)
              (-50 - shear * 100, 50 - shear * 100) top
              (_gen_axes_spines top) script_upper_xlim eq_refl eq_refl)
    as (sp' & E & C & T & X & Y0 & Y1).
  rewrite E. f_equal.
  destruct sp' as [c t [[a b] [c' d]]]; cbn [cls spine_tag vertices fst snd] in *.
  injection X as -> ->. subst. reflexivity.
Defined.

(** ** Degenerate configurations *)

Lemma upper_xlim_degenerate (ax0 ax1 : SkewXAxes.t) (s : AxesState) :
  SkewXAxes._set_lim_and_transforms ax0 = Ok ax1 ->
  width (scaled_viewLim s) = 0 \/ height (scaled_viewLim s) = 0 ->
  SkewXAxes.upper_xlim (at_state ax1 s) = Halt NonFinite.
Proof.
  intros Hb Hd. rewrite (upper_xlim_eval _ _ _ Hb).
  now rewrite (matrix_from_halt _ Hd).
Qed.

(** C6, as the claim states it, fails: with view limits of zero width
    [_set_lim_and_transforms] returns normally, it raises nothing; the
    division by the zero width happens when [upper_xlim] is read. *)
Lemma build_accepts_zero_width :
  width (viewLim zero_width_state) = 0 /\
  SkewXAxes._set_lim_and_transforms (blank zero_width_state)
    = Ok (built zero_width_state) /\
  (forall i : interrupt,
     SkewXAxes._set_lim_and_transforms (blank zero_width_state) <> Halt i) /\
  SkewXAxes.upper_xlim (built zero_width_state) = Halt NonFinite.
Proof.
  split; [unfold width; simpl; lra |].
  split; [reflexivity |].
  split; [intros i; discriminate |].
  rewrite <- (at_state_built zero_width_state zero_width_state).
  apply (upper_xlim_degenerate _ _ _ (built_ok zero_width_state)).
  left. unfold width; simpl. lra.
Qed.

(** C6, amended.  [_set_lim_and_transforms] checks nothing and returns
    normally on every axes object: it keeps the state and stores the
    stack with the skew of 30 degrees, a constant of the method whose
    matrix has determinant 1.  When the scaled view limits have zero
    width or zero height, the division by that extent takes place at
    the next reading of [upper_xlim], not when the transform is built. *)
Theorem build_never_fails (self : SkewXAxes.t) (s : AxesState) :
  width (scaled_viewLim s) = 0 \/ height (scaled_viewLim s) = 0 ->
  exists self' : SkewXAxes.t,
    SkewXAxes._set_lim_and_transforms self = Ok self' /\
    SkewXAxes.state self' = SkewXAxes.state self /\
    SkewXAxes.transDataToAxes self'
      = (SkewXAxes.transScale self' + SkewXAxes.transLimits self'
         + Affine2D (Mtx.skew_deg 30 0 Mtx.identity))%transform /\
    Mtx.det (Mtx.skew_deg 30 0 Mtx.identity) = 1 /\
    SkewXAxes._set_lim_and_transforms (at_state self s)
      = Ok (at_state self' s) /\
    SkewXAxes.upper_xlim (at_state self' s) = Halt NonFinite.
Proof.
  intros Hd.
  destruct (SkewXAxes._set_lim_and_transforms self) as [self' |] eqn:E;
    [| discriminate].
  exists self'. split; [reflexivity |].
  pose proof (upper_xlim_degenerate _ _ s E Hd) as Hu.
  unfold SkewXAxes._set_lim_and_transforms in E; simpl in E.
  injection E as <-. cbn [SkewXAxes.state SkewXAxes.transDataToAxes
    SkewXAxes.transScale SkewXAxes.transLimits].
  repeat split; trivial.
  change (Mtx.skew_deg 30 0 Mtx.identity)
    with (Mtx.skew_deg SkewXAxes.rot 0 Mtx.identity).
  rewrite skew_matrix. unfold Mtx.det; simpl. ring.
Qed.

Lemma build_never_fails_witness :
  exists self' : SkewXAxes.t,
    SkewXAxes._set_lim_and_transforms (blank script_state) = Ok self' /\
    SkewXAxes.upper_xlim (at_state self' zero_width_state) = Halt NonFinite.
Proof.
  destruct (build_never_fails (blank script_state) zero_width_state)
    as (self' & E & _ & _ & _ & _ & U).
  - left. unfold width; simpl. lra.
  - exists self'. split; assumption.
Defined.

(** ** Round trip and translation *)

(** What a scale and its inverse make of a coordinate that is not
    negative: the coordinate itself in the domain of the scale, and 10
    to the power -1000 for the coordinate 0 on a log scale. *)
Lemma pow10_clip_value : pow10 (-1000) = / 10 ^ 1000.
Proof.
  unfold pow10.
  replace (-1000 * ln 10) with (- (INR 1000 * ln 10))
    by (rewrite INR_IZR_INZ; simpl Z.of_nat; ring).
  rewrite exp_Ropp. f_equal.
  change (exp (INR 1000 * ln 10)) with (Rpower 10 (INR 1000)).
  apply Rpower_pow. lra.
Qed.

Lemma scale_round_trip (s : scale) (v : R) :
  0 <= v ->
  Rabs (scale_backward s (scale_forward s v) - v) <= pow10 (-1000) /\
  (in_domain s v -> scale_backward s (scale_forward s v) = v).
Proof.
  intros Hv. split; [| apply scale_backward_forward].
  assert (P : 0 < pow10 (-1000)) by (unfold pow10; apply exp_pos).
  destruct s; cbn [scale_forward scale_backward].
  - rewrite Rminus_diag, Rabs_R0. lra.
  - destruct (Rle_lt_dec v 0) as [Z | Pv].
    + rewrite (log10_clip_nonpos _ Z).
      replace v with 0 by lra. rewrite Rminus_0_r, Rabs_pos_eq; lra.
    + rewrite (log10_clip_pos _ Pv), (pow10_log10 _ Pv).
      rewrite Rminus_diag, Rabs_R0. lra.
Qed.

Lemma inverse_after_forward_any (s : AxesState) (p : point) :
  width (scaled_viewLim s) <> 0 -> height (scaled_viewLim s) <> 0 ->
  exists q : point,
    transform s skew_stack p = Ok q /\
    transform s (skew_stack_inverse s (scaled_viewLim s)) q
    = Ok (scale_backward (xscale s) (scale_forward (xscale s) (fst p)),
          scale_backward (yscale s) (scale_forward (yscale s) (snd p))).
Proof.
  intros Hw Hh.
  rewrite skew_stack_forward, normalize_eq, (matrix_from_ok _ Hw Hh).
  cbn [bind]. eexists; split; [reflexivity |].
  rewrite skew_stack_inverse_apply.
  unfold Mtx.apply; cbn [xx xy x0 yx yy y0 fst snd].
  fold_scaled. apply Ok_pair_eq; f_equal; field; repeat split; assumption.
Qed.

(** C8.  In a nondegenerate state the inverse of [transDataToAxes]
    exists, and for each of the reference points (0,1) and (1,1):
    [transDataToAxes] maps the point to a point that the inverse maps
    back to a point with the same ordinate and with an abscissa within
    10 to the power -1000 of the original one, and back to the point
    itself when it lies in the domain of the abscissa's scale (only the
    abscissa 0 on a log scale does not: the scale clips it to 10 to the
    power -1000); and the inverse maps the point to a point that
    [transDataToAxes] maps back to it, exactly. *)
Theorem reference_points_round_trip
    (ax0 ax1 : SkewXAxes.t) (s : AxesState) (p : point) :
  SkewXAxes._set_lim_and_transforms ax0 = Ok ax1 ->
  nondegenerate s ->
  p = (0, 1) \/ p = (1, 1) ->
  let forward := SkewXAxes.transDataToAxes (at_state ax1 s) in
  exists (inv : Transform) (q p' q' : point),
    inverted s forward = Ok inv /\
    transform s forward p = Ok q /\ transform s inv q = Ok p' /\
    snd p' = snd p /\
    Rabs (fst p' - fst p) <= / 10 ^ 1000 /\
    (in_domain (xscale s) (fst p) -> p' = p) /\
    transform s inv p = Ok q' /\ transform s forward q' = Ok p.
Proof.
  intros Hb Hn Hp forward.
  destruct (built_fields _ _ Hb) as (_ & _ & _ & _ & Hd & _).
  assert (Hf : forward = skew_stack) by exact Hd.
  destruct (nondegenerate_scaled _ Hn) as [Hw Hh].
  assert (Px : 0 <= fst p) by (destruct Hp as [-> | ->]; cbn [fst]; lra).
  assert (Dy : in_domain (yscale s) (snd p)).
  { destruct (yscale s); simpl; [exact I |].
    destruct Hp as [-> | ->]; simpl; lra. }
  destruct (inverse_after_forward_any s p Hw Hh) as (q & F & B).
  destruct (scale_round_trip (xscale s) (fst p) Px) as [Tx Ex].
  pose proof (scale_backward_forward (yscale s) (snd p) Dy) as Ey.
  exists (skew_stack_inverse s (scaled_viewLim s)), q.
  eexists. eexists.
  rewrite Hf, skew_stack_inverted, (matrix_from_ok _ Hw Hh). cbn [bind].
  split; [reflexivity |]. split; [exact F |]. split; [exact B |].
  cbn [fst snd].
  split; [exact Ey |].
  split; [rewrite <- pow10_clip_value; exact Tx |].
  split.
  - intros Dx. rewrite (Ex Dx), Ey. now destruct p.
  - split; [apply skew_stack_inverse_apply |].
    apply (forward_after_inverse s Hw Hh). apply skew_stack_inverse_apply.
Qed.

Lemma reference_points_round_trip_witness :
  (exists (inv : Transform) (q : point),
     inverted script_state (SkewXAxes.transDataToAxes (built script_state))
       = Ok inv /\
     transform script_state (SkewXAxes.transDataToAxes (built script_state))
       (0, 1) = Ok q /\
     transform script_state inv q = Ok (0, 1)) /\
  (exists (inv : Transform) (q p' : point),
     inverted log_abscissa_state
       (SkewXAxes.transDataToAxes (built log_abscissa_state)) = Ok inv /\
     transform log_abscissa_state
       (SkewXAxes.transDataToAxes (built log_abscissa_state)) (0, 1) = Ok q /\
     transform log_abscissa_state inv q = Ok p' /\
     snd p' = 1 /\ Rabs (fst p' - 0) <= / 10 ^ 1000).
Proof.
  split.
  - destruct (reference_points_round_trip (blank script_state)
                (built script_state) script_state (0, 1) eq_refl
                script_state_nondegenerate (or_introl eq_refl))
      as (inv & q & p' & _ & Hi & Hf & Hb & _ & _ & He & _).
    exists inv, q. rewrite <- (He I) at 2. repeat split; assumption.
  - assert (Hn : nondegenerate log_abscissa_state)
      by (unfold nondegenerate; simpl; repeat split; lra).
    destruct (reference_points_round_trip (blank log_abscissa_state)
                (built log_abscissa_state) log_abscissa_state (0, 1) eq_refl
                Hn (or_introl eq_refl))
      as (inv & q & p' & _ & Hi & Hf & Hb & Hy & Hx & _).
    exists inv, q, p'. repeat split; assumption.
Defined.

(** C9.  In a nondegenerate state with a linear abscissa, the upper
    interval is the lower interval moved by minus the tangent of 30
    degrees times the width of the lower interval: both bounds move by
    this amount and the widths are equal. *)
Theorem upper_interval_is_translated_lower
    (ax0 ax1 : SkewXAxes.t) (s : AxesState) :
  SkewXAxes._set_lim_and_transforms ax0 = Ok ax1 ->
  nondegenerate s ->
  xscale s = LinearScale ->
  let lower := SkewXAxes.lower_xlim (at_state ax1 s) in
  let shift := - tan (PI / 6) * (snd lower - fst lower) in
  exists upper : R * R,
    SkewXAxes.upper_xlim (at_state ax1 s) = Ok upper /\
    snd upper - fst upper = snd lower - fst lower /\
    fst upper = fst lower + shift /\
    snd upper = snd lower + shift.
Proof.
  intros Hb Hn Hx lower shift.
  eexists. split; [exact (upper_xlim_linear _ _ _ Hb Hn Hx) |].
  unfold shift, lower, SkewXAxes.lower_xlim, intervalx, width, at_state;
    cbn [fst snd SkewXAxes.state].
  rewrite <- radians_rot. fold shear. repeat split; ring.
Qed.

Lemma upper_interval_is_translated_lower_witness :
  exists upper : R * R,
    SkewXAxes.upper_xlim (built script_state) = Ok upper /\
    snd upper - fst upper = 50 - -50 /\
    fst upper = -50 + - tan (PI / 6) * (50 - -50) /\
    snd upper = 50 + - tan (PI / 6) * (50 - -50).
Proof.
  apply (upper_interval_is_translated_lower (blank script_state)
           (built script_state) script_state eq_refl
           script_state_nondegenerate eq_refl).
Defined.

(** ** Further properties of the transforms *)

Lemma shear_lt_1 : shear < 1.
Proof.
  unfold shear. rewrite radians_rot, <- tan_PI4.
  pose proof PI_RGT_0 as Hpi.
  apply tan_increasing; lra.
Qed.

Lemma built_xaxis (ax0 ax1 : SkewXAxes.t) :
  SkewXAxes._set_lim_and_transforms ax0 = Ok ax1 ->
  SkewXAxes._xaxis_transform ax1
  = ((BlendedGenericTransform
        (TransformWrapper_scale
         + BboxTransformFrom (TransformedBbox ViewLim TransformWrapper_scale))
        IdentityTransform
      + Affine2D (Mtx.skew_deg SkewXAxes.rot 0 Mtx.identity))
     + BboxTransformTo AxesBbox)%transform.
Proof.
  unfold SkewXAxes._set_lim_and_transforms; simpl.
  intros H; injection H as <-. reflexivity.
Qed.

(** The normalised abscissa depends on the data abscissa only, the
    normalised ordinate on the data ordinate only. *)
Lemma normalize_ok (s : AxesState) (p n : point) :
  normalize s p = Ok n ->
  width (scaled_viewLim s) <> 0 /\ height (scaled_viewLim s) <> 0 /\
  fst n = (scale_forward (xscale s) (fst p) - bx0 (scaled_viewLim s))
          / width (scaled_viewLim s) /\
  snd n = (scale_forward (yscale s) (snd p) - by0 (scaled_viewLim s))
          / height (scaled_viewLim s).
Proof.
  rewrite normalize_eq.
  destruct (matrix_from (scaled_viewLim s)) as [m |] eqn:E;
    cbn [bind]; [| discriminate].
  destruct (matrix_from_inv _ _ E) as (Hw & Hh & _).
  rewrite (matrix_from_ok _ Hw Hh) in E. injection E as <-.
  intros H; injection H as <-.
  unfold Mtx.apply; cbn [xx xy x0 yx yy y0 fst snd].
  split; [exact Hw |]. split; [exact Hh |].
  fold_scaled. split; field; assumption.
Qed.

Lemma normalize_total (s : AxesState) (p : point) :
  width (scaled_viewLim s) <> 0 -> height (scaled_viewLim s) <> 0 ->
  normalize s p =
  Ok ((scale_forward (xscale s) (fst p) - bx0 (scaled_viewLim s))
        / width (scaled_viewLim s),
      (scale_forward (yscale s) (snd p) - by0 (scaled_viewLim s))
        / height (scaled_viewLim s)).
Proof.
  intros Hw Hh. rewrite normalize_eq, (matrix_from_ok _ Hw Hh). cbn [bind].
  unfold Mtx.apply; cbn [xx xy x0 yx yy y0 fst snd].
  fold_scaled. apply Ok_pair_eq; field; assumption.
Qed.

Lemma blended_identity (s : AxesState) (a : Transform) (p : point) :
  transform s (BlendedGenericTransform a IdentityTransform) p
  = bind (transform s a p) (fun px => Ok (fst px, snd p)).
Proof. reflexivity. Qed.

(** X1.  The transform of the abscissa axis, which places ticks and
    gridlines, takes a data abscissa and an ordinate in axes
    coordinates.  It sends [(x, ny)] to the very pixel to which
    [transData] sends the data point [(x, y)], when [ny] is the
    normalised ordinate of [y]: a gridline at [x] passes through the
    data plotted at abscissa [x]. *)
Theorem xaxis_transform_meets_data
    (ax0 ax1 : SkewXAxes.t) (s : AxesState) (x y : R) (n : point) :
  SkewXAxes._set_lim_and_transforms ax0 = Ok ax1 ->
  let ax := at_state ax1 s in
  transform s (SkewXAxes.transScale ax + SkewXAxes.transLimits ax)%transform
    (x, y) = Ok n ->
  transform s (SkewXAxes._xaxis_transform ax) (x, snd n)
  = transform s (SkewXAxes.transData ax) (x, y).
Proof.
  intros Hb ax Hn.
  destruct (built_fields _ _ Hb) as (_ & Hs & Hl & _ & _ & Ht).
  assert (Hx := built_xaxis _ _ Hb).
  unfold ax, at_state in *; cbn [SkewXAxes.transScale SkewXAxes.transLimits
    SkewXAxes._xaxis_transform SkewXAxes.transData] in *.
  rewrite Hs, Hl in Hn. rewrite Hx, Ht. fold (normalize s (x, y)) in Hn.
  destruct (normalize_ok _ _ _ Hn) as (Hw & Hh & Nx & Ny).
  rewrite (transform_composite s skew_stack), skew_stack_forward, Hn.
  rewrite (transform_composite s (_ + _)%transform (BboxTransformTo _)).
  rewrite (transform_composite s (BlendedGenericTransform _ _)).
  rewrite blended_identity. fold (normalize s (x, snd n)).
  rewrite (normalize_total _ _ Hw Hh). cbn [bind fst snd].
  rewrite transform_affine, skew_matrix. cbn [bind].
  f_equal. unfold Mtx.apply; cbn [xx xy x0 yx yy y0 fst snd].
  cbn [fst snd] in Nx. rewrite Nx. f_equal; ring.
Qed.

Lemma script_nonzero :
  width (scaled_viewLim script_state) <> 0 /\
  height (scaled_viewLim script_state) <> 0.
Proof. exact (nondegenerate_scaled _ script_state_nondegenerate). Qed.

(** In the script's state, the data on the isobar 100 (the top edge) and
    on the isobar 1050 (the bottom edge). *)
Lemma script_normalize_top (x : R) :
  normalize script_state (x, 100) = Ok ((x + 50) / 100, 1).
Proof.
  destruct script_nonzero as [Hw Hh].
  rewrite (normalize_total _ _ Hw Hh).
  unfold height, width in *; simpl in *. apply Ok_pair_eq; field; lra.
Qed.

Lemma script_normalize_bottom (x : R) :
  normalize script_state (x, 1050) = Ok ((x + 50) / 100, 0).
Proof.
  destruct script_nonzero as [Hw Hh].
  rewrite (normalize_total _ _ Hw Hh).
  unfold height, width in *; simpl in *. apply Ok_pair_eq; field; lra.
Qed.

Lemma xaxis_transform_meets_data_witness :
  transform script_state (SkewXAxes._xaxis_transform (built script_state))
    (0, 1)
  = transform script_state (SkewXAxes.transData (built script_state))
      (0, 100).
Proof.
  exact (xaxis_transform_meets_data (blank script_state) (built script_state)
           script_state 0 100 ((0 + 50) / 100, 1) eq_refl
           (script_normalize_top 0)).
Defined.

(** X2.  A line of constant data abscissa is slanted: two data points
    with the same abscissa are normalised to the same abscissa, and
    [transDataToAxes] sends them to axes points whose abscissas differ
    by the tangent of 30 degrees times the difference of their
    ordinates. *)
Theorem constant_abscissa_is_slanted
    (ax0 ax1 : SkewXAxes.t) (s : AxesState) (x y1 y2 : R) (n1 n2 : point) :
  SkewXAxes._set_lim_and_transforms ax0 = Ok ax1 ->
  let ax := at_state ax1 s in
  let pre := (SkewXAxes.transScale ax + SkewXAxes.transLimits ax)%transform in
  transform s pre (x, y1) = Ok n1 ->
  transform s pre (x, y2) = Ok n2 ->
  fst n1 = fst n2 /\
  exists a1 a2 : point,
    transform s (SkewXAxes.transDataToAxes ax) (x, y1) = Ok a1 /\
    transform s (SkewXAxes.transDataToAxes ax) (x, y2) = Ok a2 /\
    snd a1 = snd n1 /\ snd a2 = snd n2 /\
    fst a2 - fst a1 = tan (PI / 6) * (snd a2 - snd a1).
Proof.
  intros Hb ax pre H1 H2.
  destruct (built_fields _ _ Hb) as (_ & Hs & Hl & _ & Hd & _).
  unfold pre, ax, at_state in *; cbn [SkewXAxes.transScale
    SkewXAxes.transLimits SkewXAxes.transDataToAxes] in *.
  rewrite Hs, Hl in H1, H2. rewrite Hd.
  fold (normalize s (x, y1)) in H1. fold (normalize s (x, y2)) in H2.
  destruct (normalize_ok _ _ _ H1) as (_ & _ & X1 & _).
  destruct (normalize_ok _ _ _ H2) as (_ & _ & X2 & _).
  cbn [fst snd] in X1, X2.
  assert (E : fst n1 = fst n2) by congruence.
  split; [exact E |].
  rewrite !skew_stack_forward, H1, H2. cbn [bind].
  eexists; eexists. split; [reflexivity |]. split; [reflexivity |].
  cbn [fst snd]. rewrite <- radians_rot. fold shear. rewrite E.
  repeat split; ring.
Qed.

Lemma constant_abscissa_is_slanted_witness :
  exists a1 a2 : point,
    transform script_state (SkewXAxes.transDataToAxes (built script_state))
      (0, 1050) = Ok a1 /\
    transform script_state (SkewXAxes.transDataToAxes (built script_state))
      (0, 100) = Ok a2 /\
    fst a2 - fst a1 = tan (PI / 6) * (1 - 0).
Proof.
  destruct (constant_abscissa_is_slanted (blank script_state)
              (built script_state) script_state 0 1050 100
              ((0 + 50) / 100, 0) ((0 + 50) / 100, 1) eq_refl
              (script_normalize_bottom 0) (script_normalize_top 0))
    as (_ & a1 & a2 & E1 & E2 & Y1 & Y2 & D).
  exists a1, a2. split; [exact E1 |]. split; [exact E2 |].
  rewrite D, Y1, Y2. reflexivity.
Defined.

(** X3.  The lower interval is the bottom edge: [transDataToAxes] sends
    the two bounds of [lower_xlim], taken at the first ordinate limit,
    to the corners (0,0) and (1,0) of the unit square, where the shear
    vanishes; and the inverse transform sends these corners back to
    points whose abscissas are [lower_xlim]. *)
Theorem lower_xlim_is_bottom_edge
    (ax0 ax1 : SkewXAxes.t) (s : AxesState) :
  SkewXAxes._set_lim_and_transforms ax0 = Ok ax1 ->
  nondegenerate s ->
  let ax := at_state ax1 s in
  let lower := SkewXAxes.lower_xlim ax in
  let y := by0 (viewLim s) in
  transform s (SkewXAxes.transDataToAxes ax) (fst lower, y) = Ok (0, 0) /\
  transform s (SkewXAxes.transDataToAxes ax) (snd lower, y) = Ok (1, 0) /\
  exists inv : Transform,
    inverted s (SkewXAxes.transDataToAxes ax) = Ok inv /\
    transform s inv (0, 0) = Ok (fst lower, y) /\
    transform s inv (1, 0) = Ok (snd lower, y).
Proof.
  intros Hb Hn ax lower y.
  destruct (built_fields _ _ Hb) as (_ & _ & _ & _ & Hd & _).
  destruct (nondegenerate_scaled _ Hn) as [Hw Hh].
  destruct Hn as (Dx0 & Dx1 & Dy0 & _).
  unfold ax, at_state; cbn [SkewXAxes.transDataToAxes]. rewrite Hd.
  assert (I0 : transform s (skew_stack_inverse s (scaled_viewLim s)) (0, 0)
               = Ok (fst lower, y)).
  { rewrite skew_stack_inverse_apply. cbn [fst snd].
    unfold lower, y, SkewXAxes.lower_xlim, intervalx; cbn [fst snd].
    apply Ok_pair_eq.
    - transitivity (scale_backward (xscale s)
                      (scale_forward (xscale s) (bx0 (viewLim s))));
        [f_equal; unfold scaled_viewLim, width; simpl; ring
        | apply scale_backward_forward, Dx0].
    - transitivity (scale_backward (yscale s)
                      (scale_forward (yscale s) (by0 (viewLim s))));
        [f_equal; unfold scaled_viewLim, height; simpl; ring
        | apply scale_backward_forward, Dy0]. }
  assert (I1 : transform s (skew_stack_inverse s (scaled_viewLim s)) (1, 0)
               = Ok (snd lower, y)).
  { rewrite skew_stack_inverse_apply. cbn [fst snd].
    unfold lower, y, SkewXAxes.lower_xlim, intervalx; cbn [fst snd].
    apply Ok_pair_eq.
    - transitivity (scale_backward (xscale s)
                      (scale_forward (xscale s) (bx1 (viewLim s))));
        [f_equal; unfold scaled_viewLim, width; simpl; ring
        | apply scale_backward_forward, Dx1].
    - transitivity (scale_backward (yscale s)
                      (scale_forward (yscale s) (by0 (viewLim s))));
        [f_equal; unfold scaled_viewLim, height; simpl; ring
        | apply scale_backward_forward, Dy0]. }
  split; [exact (forward_after_inverse s Hw Hh _ _ I0) |].
  split; [exact (forward_after_inverse s Hw Hh _ _ I1) |].
  exists (skew_stack_inverse s (scaled_viewLim s)).
  rewrite skew_stack_inverted, (matrix_from_ok _ Hw Hh). cbn [bind].
  repeat split; assumption.
Qed.

Lemma lower_xlim_is_bottom_edge_witness :
  transform script_state (SkewXAxes.transDataToAxes (built script_state))
    (-50, 1050) = Ok (0, 0) /\
  transform script_state (SkewXAxes.transDataToAxes (built script_state))
    (50, 1050) = Ok (1, 0).
Proof.
  destruct (lower_xlim_is_bottom_edge (blank script_state)
              (built script_state) script_state eq_refl
              script_state_nondegenerate) as (F0 & F1 & _).
  split; [exact F0 | exact F1].
Defined.

(** X4.  The upper interval depends on the abscissa only: two
    nondegenerate states with the same abscissa scale and the same
    abscissa limits have the same upper interval, whatever their
    ordinate limits, ordinate scales and pixel boxes are. *)
Theorem upper_xlim_ignores_ordinates_and_pixels
    (ax0 ax1 : SkewXAxes.t) (s s' : AxesState) :
  SkewXAxes._set_lim_and_transforms ax0 = Ok ax1 ->
  nondegenerate s -> nondegenerate s' ->
  xscale s = xscale s' ->
  intervalx (viewLim s) = intervalx (viewLim s') ->
  SkewXAxes.upper_xlim (at_state ax1 s)
  = SkewXAxes.upper_xlim (at_state ax1 s').
Proof.
  intros Hb Hn Hn' Hx Hi.
  rewrite !(upper_xlim_eval _ _ _ Hb).
  destruct (nondegenerate_scaled _ Hn) as [Hw Hh].
  destruct (nondegenerate_scaled _ Hn') as [Hw' Hh'].
  rewrite (matrix_from_ok _ Hw Hh), (matrix_from_ok _ Hw' Hh'). cbn [bind].
  unfold intervalx in Hi. injection Hi as H0 H1.
  unfold scaled_viewLim, width; cbn [bx0 bx1].
  now rewrite Hx, H0, H1.
Qed.

Lemma upper_xlim_ignores_ordinates_and_pixels_witness :
  SkewXAxes.upper_xlim (built script_state)
  = SkewXAxes.upper_xlim
      (built (MkAxesState (MkBbox (-50) 0 50 1) (MkBbox 0 0 640 480)
                          LinearScale LinearScale)).
Proof.
  apply (upper_xlim_ignores_ordinates_and_pixels (blank script_state)
           (built script_state) script_state
           (MkAxesState (MkBbox (-50) 0 50 1) (MkBbox 0 0 640 480)
                        LinearScale LinearScale) eq_refl
           script_state_nondegenerate).
  - unfold nondegenerate; simpl. repeat split; lra.
  - reflexivity.
  - reflexivity.
Defined.

Lemma pow10_plus (a b : R) : pow10 (a + b) = pow10 a * pow10 b.
Proof.
  unfold pow10. rewrite Rmult_plus_distr_r. apply exp_plus.
Qed.

Lemma pow10_pos (a : R) : 0 < pow10 a.
Proof. unfold pow10. apply exp_pos. Qed.

(** X5.  With a logarithmic abscissa the upper interval is the lower
    interval multiplied by one positive factor, 10 to the power
    [- tan(30 degrees) * (log10 x1 - log10 x0)]: the shear moves the
    interval by a ratio, not by a difference. *)
Theorem upper_xlim_log_abscissa
    (ax0 ax1 : SkewXAxes.t) (s : AxesState) :
  SkewXAxes._set_lim_and_transforms ax0 = Ok ax1 ->
  nondegenerate s ->
  xscale s = LogScale ->
  let lower := SkewXAxes.lower_xlim (at_state ax1 s) in
  let k := pow10 (- tan (PI / 6) * (log10 (snd lower) - log10 (fst lower))) in
  0 < k /\
  SkewXAxes.upper_xlim (at_state ax1 s) = Ok (fst lower * k, snd lower * k).
Proof.
  intros Hb Hn Hx lower k.
  split; [apply pow10_pos |].
  rewrite (upper_xlim_eval _ _ _ Hb).
  destruct (nondegenerate_scaled _ Hn) as [Hw Hh].
  rewrite (matrix_from_ok _ Hw Hh). cbn [bind].
  destruct Hn as (Dx0 & Dx1 & _). rewrite Hx in Dx0, Dx1. simpl in Dx0, Dx1.
  unfold k, lower, SkewXAxes.lower_xlim, intervalx, at_state;
    cbn [fst snd SkewXAxes.state].
  unfold scaled_viewLim, width; cbn [bx0 bx1]. rewrite Hx.
  cbn [scale_forward scale_backward].
  rewrite (log10_clip_pos _ Dx0), (log10_clip_pos _ Dx1).
  rewrite <- radians_rot. fold shear.
  apply Ok_pair_eq.
  - transitivity (pow10 (log10 (bx0 (viewLim s))
                         + - shear * (log10 (bx1 (viewLim s))
                                      - log10 (bx0 (viewLim s)))));
      [f_equal; ring | now rewrite pow10_plus, (pow10_log10 _ Dx0)].
  - transitivity (pow10 (log10 (bx1 (viewLim s))
                         + - shear * (log10 (bx1 (viewLim s))
                                      - log10 (bx0 (viewLim s)))));
      [f_equal; ring | now rewrite pow10_plus, (pow10_log10 _ Dx1)].
Qed.

Lemma upper_xlim_log_abscissa_witness :
  SkewXAxes.upper_xlim
    (built (MkAxesState (MkBbox 1 0 100 1) (MkBbox 0 0 640 480)
                        LogScale LinearScale))
  = Ok (1 * pow10 (- tan (PI / 6) * (log10 100 - log10 1)),
        100 * pow10 (- tan (PI / 6) * (log10 100 - log10 1))).
Proof.
  apply (upper_xlim_log_abscissa
           (blank (MkAxesState (MkBbox 1 0 100 1) (MkBbox 0 0 640 480)
                               LogScale LinearScale))
           (built (MkAxesState (MkBbox 1 0 100 1) (MkBbox 0 0 640 480)
                               LogScale LinearScale))
           (MkAxesState (MkBbox 1 0 100 1) (MkBbox 0 0 640 480)
                        LogScale LinearScale) eq_refl).
  - unfold nondegenerate; simpl. repeat split; lra.
  - reflexivity.
Defined.

(** X6.  Which view limits show on which edge (linear abscissa,
    nondegenerate state).  The first limit [x0], at the left end of the
    bottom edge, lies in the upper interval too; the second limit [x1],
    at the right end of the bottom edge, does not lie in the upper
    interval; the first bound of the upper interval does not lie in the
    lower interval and the second does.  So a tick at [x1] shows its
    bottom mark as its flag says and never its top mark. *)
Theorem view_limits_on_the_edges
    (ax0 ax1 : SkewXAxes.t) (s : AxesState) (upper : R * R)
    (tick : SkewXTick.t) :
  SkewXAxes._set_lim_and_transforms ax0 = Ok ax1 ->
  nondegenerate s ->
  xscale s = LinearScale ->
  SkewXAxes.upper_xlim (at_state ax1 s) = Ok upper ->
  SkewXTick.get_loc tick = Some (bx1 (viewLim s)) ->
  let lower := SkewXAxes.lower_xlim (at_state ax1 s) in
  interval_contains upper (fst lower) = true /\
  interval_contains upper (snd lower) = false /\
  interval_contains lower (fst upper) = false /\
  interval_contains lower (snd upper) = true /\
  SkewXTick.tick1On (at_state ax1 s) tick = Ok (SkewXTick._tick1On tick) /\
  SkewXTick.tick2On (at_state ax1 s) tick = Ok false /\
  SkewXTick.label2On (at_state ax1 s) tick = Ok false.
Proof.
  intros Hb Hn Hx Hu Hloc lower.
  unfold SkewXTick.tick1On, SkewXTick.tick2On, SkewXTick.label2On.
  rewrite (need_lower_at _ _ _ Hloc), (need_upper_at _ _ _ _ Hloc Hu),
    !py_and_ok.
  pose proof (upper_xlim_linear _ _ _ Hb Hn Hx) as Hu'.
  rewrite Hu in Hu'. injection Hu' as ->.
  pose proof shear_pos as Hs0. pose proof shear_lt_1 as Hs1.
  destruct Hn as (_ & _ & _ & _ & Hne & _).
  unfold lower, SkewXAxes.lower_xlim, intervalx, at_state, width;
    cbn [fst snd SkewXAxes.state].
  set (a := bx0 (viewLim s)) in *. set (b := bx1 (viewLim s)) in *.
  assert (C1 : interval_contains (a - shear * (b - a), b - shear * (b - a)) a
               = true).
  { apply interval_contains_either_order.
    destruct (Rle_or_lt a b); [left | right]; nra. }
  assert (C2 : interval_contains (a - shear * (b - a), b - shear * (b - a)) b
               = false).
  { apply not_true_is_false. rewrite interval_contains_either_order.
    destruct (Rle_or_lt a b); nra. }
  assert (C3 : interval_contains (a, b) (a - shear * (b - a)) = false).
  { apply not_true_is_false. rewrite interval_contains_either_order.
    destruct (Rle_or_lt a b); nra. }
  assert (C4 : interval_contains (a, b) (b - shear * (b - a)) = true).
  { apply interval_contains_either_order.
    destruct (Rle_or_lt a b); [left | right]; nra. }
  repeat (split; [assumption |]).
  rewrite C2, (proj2 (interval_contains_bounds a b)).
  rewrite !andb_true_r, !andb_false_r. repeat split.
Qed.

Lemma view_limits_on_the_edges_witness :
  SkewXTick.tick1On (built script_state) (tick_at 50) = Ok true /\
  SkewXTick.tick2On (built script_state) (tick_at 50) = Ok false.
Proof.
  destruct (view_limits_on_the_edges (blank script_state)
              (built script_state) script_state
              (-50 - shear * 100, 50 - shear * 100) (tick_at 50) eq_refl
              script_state_nondegenerate eq_refl script_upper_xlim eq_refl)
    as (_ & _ & _ & _ & T1 & T2 & _).
  split; [exact T1 | exact T2].
Defined.

(** X7.  The interval of [SkewXAxis.get_view_interval] is exactly the
    union of the lower and the upper interval (linear abscissa,
    nondegenerate state): it contains a value if and only if one of the
    two contains it.  So the gridline of a tick placed at [loc] is
    visible exactly when its flag is set and the tick needs the lower or
    the upper edge. *)
Theorem combined_interval_is_union
    (ax0 ax1 : SkewXAxes.t) (s : AxesState) (upper : R * R)
    (tick : SkewXTick.t) (loc : R) :
  SkewXAxes._set_lim_and_transforms ax0 = Ok ax1 ->
  nondegenerate s ->
  xscale s = LinearScale ->
  SkewXAxes.upper_xlim (at_state ax1 s) = Ok upper ->
  SkewXTick.get_loc tick = Some loc ->
  let lower := SkewXAxes.lower_xlim (at_state ax1 s) in
  (forall val : R,
     interval_contains (fst upper, snd lower) val
     = interval_contains lower val || interval_contains upper val) /\
  SkewXTick.gridOn (at_state ax1 s) tick
  = Ok (SkewXTick._gridOn tick
        && (interval_contains lower loc || interval_contains upper loc)).
Proof.
  intros Hb Hn Hx Hu Hloc lower.
  assert (U : forall val : R,
     interval_contains (fst upper, snd lower) val
     = interval_contains lower val || interval_contains upper val).
  { intros val.
    pose proof (upper_xlim_linear _ _ _ Hb Hn Hx) as Hu'.
    rewrite Hu in Hu'. injection Hu' as ->.
    pose proof shear_pos as Hs0. pose proof shear_lt_1 as Hs1.
    unfold lower, SkewXAxes.lower_xlim, intervalx, at_state, width;
      cbn [fst snd SkewXAxes.state].
    set (a := bx0 (viewLim s)). set (b := bx1 (viewLim s)).
    apply eq_true_iff_eq.
    rewrite orb_true_iff, !interval_contains_either_order.
    destruct (Rle_or_lt a b); split; intros; nra. }
  split; [exact U |].
  rewrite (gridOn_eval _ _ _ Hu), Hloc. cbn [eligible].
  f_equal. f_equal. apply U.
Qed.

Lemma combined_interval_is_union_witness :
  SkewXTick.gridOn (built script_state) (tick_at 60) = Ok false.
Proof.
  destruct (combined_interval_is_union (blank script_state)
              (built script_state) script_state
              (-50 - shear * 100, 50 - shear * 100) (tick_at 60) 60 eq_refl
              script_state_nondegenerate eq_refl script_upper_xlim eq_refl)
    as (_ & G).
  refine (eq_trans G _). f_equal.
  pose proof shear_pos as Hs.
  change (SkewXAxes.lower_xlim (at_state (built script_state) script_state))
    with (-50, 50).
  rewrite (interval_contains_false (-50) 50 60),
    (interval_contains_false (-50 - shear * 100) (50 - shear * 100) 60);
    [reflexivity | |]; right; rewrite Rmax_right by lra; lra.
Defined.

(** ** Further properties of the spines *)

(** X8.  A layout pass keeps the class and the tag of a spine and
    overwrites one column of its path, so the path after a pass depends
    on the state at this pass only: a pass in one state followed by a
    pass in another state gives what the second pass alone gives, and a
    repeated pass changes nothing. *)
Theorem adjust_location_follows_latest_state
    (axes axes' : SkewXAxes.t) (sp sp1 : Spine) :
  adjust_location axes sp = Ok sp1 ->
  adjust_location axes' sp1 = adjust_location axes' sp /\
  adjust_location axes sp1 = Ok sp1.
Proof.
  intros H.
  assert (G : forall a : SkewXAxes.t,
            adjust_location a sp1 = adjust_location a sp).
  { intros a. revert H. unfold adjust_location,
      SkewSpine._adjust_location, MSpine._adjust_location.
    destruct sp as [c t [[xa ya] [xb yb]]]; cbn [cls spine_tag vertices].
    destruct c, t;
      try (destruct (SkewXAxes.upper_xlim axes) as [u |]; cbn [bind]);
      intros E; try discriminate; injection E as <-;
      cbn [cls spine_tag vertices];
      try (destruct (SkewXAxes.upper_xlim a) as [u' |]; cbn [bind]);
      reflexivity. }
  split; [apply G |]. rewrite G. exact H.
Qed.

Lemma adjust_location_follows_latest_state_witness :
  adjust_location (built script_state)
    (MkSpine SkewSpine_cls top ((50 - shear * (-50 - 50), 1),
                                (-50 - shear * (-50 - 50), 1)))
  = adjust_location (built script_state) (_gen_axes_spines top).
Proof.
  apply (adjust_location_follows_latest_state (built reversed_state)
           (built script_state) (_gen_axes_spines top)).
  unfold adjust_location, SkewSpine._adjust_location; simpl cls; cbn iota.
  cbn [spine_tag _gen_axes_spines MSpine.linear_spine].
  rewrite <- (at_state_built reversed_state reversed_state).
  rewrite (upper_xlim_linear _ _ _ (built_ok reversed_state)
             reversed_state_nondegenerate eq_refl).
  reflexivity.
Defined.

(** X9.  [SkewSpine._adjust_location] has a branch for the spines that
    are not at the top.  On a bottom spine it does what matplotlib's
    spine does.  On a left or right spine it differs: it overwrites the
    abscissas with the lower interval and keeps the ordinates, where
    matplotlib's spine overwrites the ordinates with [viewLim.intervaly]
    and keeps the abscissas. *)
Theorem skew_spine_on_other_edges (axes : SkewXAxes.t) (sp : Spine) :
  spine_tag sp <> top ->
  let view := viewLim (SkewXAxes.state axes) in
  exists skew lib : Spine,
    SkewSpine._adjust_location axes sp = Ok skew /\
    MSpine._adjust_location axes sp = Ok lib /\
    (fst (fst (vertices skew)), fst (snd (vertices skew))) = intervalx view /\
    snd (fst (vertices skew)) = snd (fst (vertices sp)) /\
    snd (snd (vertices skew)) = snd (snd (vertices sp)) /\
    (spine_tag sp = bottom -> skew = lib) /\
    (spine_tag sp = left \/ spine_tag sp = right ->
     (snd (fst (vertices lib)), snd (snd (vertices lib))) = intervaly view /\
     fst (fst (vertices lib)) = fst (fst (vertices sp)) /\
     fst (snd (vertices lib)) = fst (snd (vertices sp))).
Proof.
  intros Ht view.
  unfold SkewSpine._adjust_location, MSpine._adjust_location,
    SkewXAxes.lower_xlim.
  destruct sp as [c t [[xa ya] [xb yb]]]; cbn [cls spine_tag vertices] in *.
  destruct t; [contradiction | | |];
    (eexists; eexists; split; [reflexivity |]; split; [reflexivity |]);
    cbn [vertices set_column0 set_column1 fst snd];
    (split; [reflexivity |]); (split; [reflexivity |]);
    (split; [reflexivity |]); split;
    try (intros E; discriminate E);
    try (intros [E | E]; discriminate E);
    intros _; repeat split.
Qed.

Lemma skew_spine_on_other_edges_witness :
  SkewSpine._adjust_location (built script_state) (_gen_axes_spines bottom)
  = MSpine._adjust_location (built script_state) (_gen_axes_spines bottom).
Proof.
  destruct (skew_spine_on_other_edges (built script_state)
              (_gen_axes_spines bottom))
    as (skew & lib & E1 & E2 & _ & _ & _ & B & _).
  - discriminate.
  - rewrite E1, E2. f_equal. apply B. reflexivity.
Defined.

(** ** The indices *)

Ltac decide_comparisons :=
  unfold Rltb, Rgeb, Rleb, Rgtb in *;
  repeat match goal with
  | |- context [Rlt_dec ?a ?b] => destruct (Rlt_dec a b)
  | |- context [Rge_dec ?a ?b] => destruct (Rge_dec a b)
  | |- context [Rle_dec ?a ?b] => destruct (Rle_dec a b)
  | |- context [Rgt_dec ?a ?b] => destruct (Rgt_dec a b)
  end;
  cbn [andb] in *.

(** The three classes of one ingredient of a Haines index. *)
Lemma three_classes (v lo hi : R) :
  lo <= hi ->
  let c := (if Rltb v lo then 1
            else if Rgeb v lo && Rleb v hi then 2 else 3)%Z in
  (1 <= c <= 3)%Z /\
  (c = 1%Z <-> v < lo) /\ (c = 2%Z <-> lo <= v <= hi) /\ (c = 3%Z <-> v > hi).
Proof.
  intros H c. unfold c. decide_comparisons;
    repeat split; intros; try lia; try lra; try discriminate;
    exfalso; lra.
Qed.

Lemma three_classes_monotone (v v' lo hi : R) :
  v <= v' ->
  ((if Rltb v lo then 1
    else if Rgeb v lo && Rleb v hi then 2 else 3)
   <= (if Rltb v' lo then 1
       else if Rgeb v' lo && Rleb v' hi then 2 else 3))%Z.
Proof.
  intros H. decide_comparisons; try lia; exfalso; lra.
Qed.

(** X10.  [Haines_H] is an integer from 2 to 6.  It is 2 exactly when
    the temperature difference is below 17 and the dewpoint depression
    below 14, and 6 exactly when they are above 21 and above 20; the
    bounds 17, 21, 14 and 20 belong to the middle class, so with both
    ingredients in their middle class the index is 4. *)
Theorem Haines_H_range (T_UP T_LO TD_LO : R) :
  let Tdiff := T_LO - T_UP in
  let DD_LO := T_LO - TD_LO in
  (2 <= Haines_H T_UP T_LO TD_LO <= 6)%Z /\
  (Haines_H T_UP T_LO TD_LO = 2%Z <-> Tdiff < 17 /\ DD_LO < 14) /\
  (Haines_H T_UP T_LO TD_LO = 6%Z <-> Tdiff > 21 /\ DD_LO > 20) /\
  (17 <= Tdiff <= 21 /\ 14 <= DD_LO <= 20 ->
   Haines_H T_UP T_LO TD_LO = 4%Z).
Proof.
  intros Tdiff DD_LO. unfold Haines_H. fold Tdiff DD_LO.
  destruct (three_classes Tdiff 17 21 ltac:(lra)) as (B1 & L1 & M1 & U1).
  destruct (three_classes DD_LO 14 20 ltac:(lra)) as (B2 & L2 & M2 & U2).
  cbv zeta in B1, L1, M1, U1, B2, L2, M2, U2.
  set (ST := (if Rltb Tdiff 17 then _ else _)%Z) in *.
  set (MT := (if Rltb DD_LO 14 then _ else _)%Z) in *.
  repeat split; try lia.
  - apply L1. lia.
  - apply L2. lia.
  - intros [A B]. apply L1 in A. apply L2 in B. lia.
  - apply U1. lia.
  - apply U2. lia.
  - intros [A B]. apply U1 in A. apply U2 in B. lia.
  - intros [A B]. apply M1 in A. apply M2 in B. lia.
Qed.

(** X11.  The same for [Haines_M], with the thresholds 5 and 10 for the
    temperature difference and 5 and 12 for the dewpoint depression. *)
Theorem Haines_M_range (T_UP T_LO TD_LO : R) :
  let Tdiff := T_LO - T_UP in
  let DD_LO := T_LO - TD_LO in
  (2 <= Haines_M T_UP T_LO TD_LO <= 6)%Z /\
  (Haines_M T_UP T_LO TD_LO = 2%Z <-> Tdiff < 5 /\ DD_LO < 5) /\
  (Haines_M T_UP T_LO TD_LO = 6%Z <-> Tdiff > 10 /\ DD_LO > 12) /\
  (5 <= Tdiff <= 10 /\ 5 <= DD_LO <= 12 ->
   Haines_M T_UP T_LO TD_LO = 4%Z).
Proof.
  intros Tdiff DD_LO. unfold Haines_M. fold Tdiff DD_LO.
  destruct (three_classes Tdiff 5 10 ltac:(lra)) as (B1 & L1 & M1 & U1).
  destruct (three_classes DD_LO 5 12 ltac:(lra)) as (B2 & L2 & M2 & U2).
  cbv zeta in B1, L1, M1, U1, B2, L2, M2, U2.
  set (ST := (if Rltb Tdiff 5 then _ else _)%Z) in *.
  set (MT := (if Rltb DD_LO 5 then _ else _)%Z) in *.
  repeat split; try lia.
  - apply L1. lia.
  - apply L2. lia.
  - intros [A B]. apply L1 in A. apply L2 in B. lia.
  - apply U1. lia.
  - apply U2. lia.
  - intros [A B]. apply U1 in A. apply U2 in B. lia.
  - intros [A B]. apply M1 in A. apply M2 in B. lia.
Qed.

(** X12.  The Haines indices do not decrease when the temperature
    difference and the dewpoint depression do not decrease. *)
Theorem Haines_monotone (T_UP T_LO TD_LO T_UP' T_LO' TD_LO' : R) :
  T_LO - T_UP <= T_LO' - T_UP' ->
  T_LO - TD_LO <= T_LO' - TD_LO' ->
  (Haines_H T_UP T_LO TD_LO <= Haines_H T_UP' T_LO' TD_LO')%Z /\
  (Haines_M T_UP T_LO TD_LO <= Haines_M T_UP' T_LO' TD_LO')%Z.
Proof.
  intros H1 H2. unfold Haines_H, Haines_M. cbv zeta.
  pose proof (three_classes_monotone _ _ 17 21 H1).
  pose proof (three_classes_monotone _ _ 14 20 H2).
  pose proof (three_classes_monotone _ _ 5 10 H1).
  pose proof (three_classes_monotone _ _ 5 12 H2).
  split; lia.
Qed.

Lemma Haines_monotone_witness :
  (Haines_H 250 270 255 <= Haines_H 250 272 255)%Z /\
  (Haines_M 250 270 255 <= Haines_M 250 272 255)%Z.
Proof.
  apply (Haines_monotone 250 270 255 250 272 255); lra.
Defined.

Lemma Haines_H_range_witness :
  Haines_H 250 270 255 = 4%Z.
Proof.
  apply (Haines_H_range 250 270 255). lra.
Defined.

Lemma Haines_M_range_witness :
  Haines_M 260 270 265 = 4%Z.
Proof.
  apply (Haines_M_range 260 270 265). lra.
Defined.

(** X13.  [C_Haines] is half the temperature difference plus a third of
    the dewpoint depression, minus 3, while the depression is at most
    18, and half the temperature difference plus a sixth of the
    depression above 18.  The assignment [DD_LO = 30] comes after the
    depression has been used and changes nothing: for a fixed
    temperature difference the value grows strictly with the
    depression, also above 30. *)
Theorem C_Haines_value (T_UP T_LO TD_LO : R) :
  let Tdiff := T_LO - T_UP in
  let DD_LO := T_LO - TD_LO in
  (DD_LO <= 18 -> C_Haines T_UP T_LO TD_LO = Tdiff / 2 + DD_LO / 3 - 3) /\
  (DD_LO > 18 -> C_Haines T_UP T_LO TD_LO = Tdiff / 2 + DD_LO / 6) /\
  (forall TD_LO' : R,
     TD_LO' < TD_LO ->
     C_Haines T_UP T_LO TD_LO < C_Haines T_UP T_LO TD_LO').
Proof.
  intros Tdiff DD_LO. unfold Tdiff, DD_LO.
  split; [| split]; intros; unfold C_Haines; cbv zeta;
    decide_comparisons; lra.
Qed.

Lemma C_Haines_value_witness :
  C_Haines 250 270 234 = (270 - 250) / 2 + (270 - 234) / 6 /\
  C_Haines 250 270 234 < C_Haines 250 270 230.
Proof.
  destruct (C_Haines_value 250 270 234) as (_ & V & M).
  split; [apply V; lra | apply M; lra].
Defined.

(** X14.  With different heights, [MWPI] returns: the lapse rate
    [gamma]; [MWPIv1], which is at least [CAPE/100 + gamma] because a
    negative difference of the dewpoint depressions counts as zero, and
    which is [CAPE/100 + gamma] plus that difference otherwise;
    [MWPIv2], with [MWPIv1 - 5 * MWPIv2 = CAPE/200]; the gust potential
    [WGP], linear in [MWPIv1]; and [WGPv2], which is above 32.6 for all
    inputs. *)
Theorem MWPI_values_spec (Z_UP Z_LO T_UP T_LO TD_UP TD_LO CAPE : R) :
  Z_UP <> Z_LO ->
  let DDD := (T_LO - TD_LO) - (T_UP - TD_UP) in
  exists v : MWPI_values,
    MWPI Z_UP Z_LO T_UP T_LO TD_UP TD_LO CAPE = Ok v /\
    gamma v = (T_LO - T_UP) / (Z_UP - Z_LO) /\
    MWPIv1 v >= CAPE / 100 + gamma v /\
    (DDD <= 0 -> MWPIv1 v = CAPE / 100 + gamma v) /\
    (DDD >= 0 -> MWPIv1 v = CAPE / 100 + gamma v + DDD) /\
    MWPIv1 v - 5 * MWPIv2 v = CAPE / 200 /\
    WGP v = 0.4553 * MWPIv1 v + 28.769 /\
    WGPv2 v > 32.6.
Proof.
  intros Hz DDD. unfold MWPI.
  destruct (Req_dec_T (Z_UP - Z_LO) 0) as [E | _]; [exfalso; lra |].
  eexists. split; [reflexivity |]. cbn [gamma MWPIv1 MWPIv2 WGP WGPv2].
  fold DDD. set (g := (T_LO - T_UP) / (Z_UP - Z_LO)).
  set (d := if Rltb DDD 0 then 0 else DDD).
  assert (Hd : 0 <= d /\ (DDD <= 0 -> d = 0) /\ (DDD >= 0 -> d = DDD)).
  { unfold d. decide_comparisons; repeat split; intros; lra. }
  destruct Hd as (D0 & D1 & D2).
  split; [reflexivity |].
  split; [lra |].
  split; [intros H; rewrite (D1 H); lra |].
  split; [intros H; rewrite (D2 H); lra |].
  split; [lra |].
  split; [reflexivity |].
  set (m := CAPE / 1000 + g / 5 + d / 5).
  pose proof (pow2_ge_0 (m + 1.8287)). nra.
Qed.

Lemma MWPI_values_spec_witness :
  exists v : MWPI_values,
    MWPI 5.370 2.697 255 270 240 265 0 = Ok v /\
    MWPIv1 v = 0 / 100 + gamma v /\
    MWPIv1 v - 5 * MWPIv2 v = 0 / 200.
Proof.
  destruct (MWPI_values_spec 5.370 2.697 255 270 240 265 0)
    as (v & E & _ & _ & C & _ & R5 & _).
  - lra.
  - exists v. split; [exact E |]. split; [apply C; lra | exact R5].
Defined.

(** With equal heights [MWPI] raises nothing: it divides by zero, and
    its values are not finite numbers. *)
Lemma MWPI_equal_heights (Z T_UP T_LO TD_UP TD_LO CAPE : R) :
  MWPI Z Z T_UP T_LO TD_UP TD_LO CAPE = Halt NonFinite.
Proof.
  unfold MWPI.
  destruct (Req_dec_T (Z - Z) 0) as [_ | N]; [reflexivity |].
  exfalso. apply N. ring.
Qed.

(** ** The cleaning of the text *)

Lemma is_dot_eq (c : ascii) : is_dot c = true -> c = dot_char.
Proof.
  unfold is_dot. rewrite Nat.eqb_eq. intros H.
  rewrite <- (ascii_nat_embedding c), H. reflexivity.
Qed.

Lemma is_blank_eq (c : ascii) : is_blank c = true -> c = space_char.
Proof.
  unfold is_blank. rewrite Nat.eqb_eq. intros H.
  rewrite <- (ascii_nat_embedding c), H. reflexivity.
Qed.

Lemma digit_not_space (c : ascii) :
  is_digit c = true ->
  is_space c = false /\ is_blank c = false /\ is_dot c = false.
Proof.
  unfold is_digit, is_space, is_blank, is_dot.
  set (n := nat_of_ascii c). cbv zeta.
  rewrite andb_true_iff, !Nat.leb_le. intros [L U].
  repeat split; apply not_true_is_false;
    rewrite ?orb_true_iff, ?andb_true_iff, ?Nat.leb_le, ?Nat.eqb_eq; lia.
Qed.

Lemma visible_skip_run (s : text) :
  visible (skipn (space_run s) s) = visible s.
Proof.
  induction s as [| c s IH]; [reflexivity |].
  cbn [space_run]. destruct (is_space c) eqn:E.
  - cbn [skipn visible filter]. rewrite E. exact IH.
  - reflexivity.
Qed.

Lemma match_dot_shape (s : text) (d : ascii) (len : nat) :
  match_dot s = Some (d, len) ->
  exists c1 c3 rest tail,
    s = c1 :: dot_char :: c3 :: rest /\
    is_space c1 = true /\ is_space c3 = true /\
    skipn (space_run rest) rest = d :: tail /\
    is_digit d = true /\ len = (4 + space_run rest)%nat.
Proof.
  destruct s as [| c1 [| c2 [| c3 rest]]]; try discriminate.
  unfold match_dot.
  destruct (is_space c1) eqn:E1; [| discriminate].
  destruct (is_dot c2) eqn:E2; [| discriminate].
  destruct (is_space c3) eqn:E3; [| discriminate].
  cbn [andb].
  destruct (skipn (space_run rest) rest) as [| d' tail] eqn:Er;
    [discriminate |].
  destruct (is_digit d') eqn:Ed; [| discriminate].
  intros H; injection H as <- <-.
  exists c1, c3, rest, tail. rewrite (is_dot_eq _ E2). repeat split; trivial.
Qed.

Lemma skipn_run_length (s : text) (d : ascii) (tail : text) :
  skipn (space_run s) s = d :: tail ->
  (space_run s < List.length s)%nat /\
  skipn (S (space_run s)) s = tail.
Proof.
  induction s as [| c s IH]; cbn [space_run].
  - discriminate.
  - destruct (is_space c); cbn [skipn List.length].
    + intros H. destruct (IH H). split; [lia | assumption].
    + intros H; injection H as _ <-. split; [lia | reflexivity].
Qed.

Lemma sub_dot_visible (s : text) (skip : nat) :
  visible (sub_dot skip s) = visible (skipn skip s).
Proof.
  revert skip. induction s as [| c s' IH]; intros skip;
    [destruct skip; reflexivity |].
  destruct skip as [| k]; cbn [sub_dot skipn]; [| apply IH].
  destruct (match_dot (c :: s')) as [[d len] |] eqn:M.
  - destruct (match_dot_shape _ _ _ M)
      as (c1 & c3 & rest & tail & Es & S1 & S3 & Er & Dd & ->).
    injection Es as -> ->.
    destruct (skipn_run_length _ _ _ Er) as [Hl Ht].
    destruct (digit_not_space _ Dd) as (Nd & _).
    change (Nat.pred (4 + space_run rest)) with (3 + space_run rest)%nat.
    change (visible (dot_char :: d :: sub_dot (3 + space_run rest)
                                       (dot_char :: c3 :: rest)))
      with (if negb (is_space dot_char)
            then dot_char :: (if negb (is_space d)
                   then d :: visible (sub_dot (3 + space_run rest)
                                        (dot_char :: c3 :: rest))
                   else visible (sub_dot (3 + space_run rest)
                                   (dot_char :: c3 :: rest)))
            else (if negb (is_space d)
                   then d :: visible (sub_dot (3 + space_run rest)
                                        (dot_char :: c3 :: rest))
                   else visible (sub_dot (3 + space_run rest)
                                   (dot_char :: c3 :: rest)))).
    rewrite Nd, IH.
    change (skipn (3 + space_run rest) (dot_char :: c3 :: rest))
      with (skipn (S (space_run rest)) rest).
    rewrite Ht.
    change (is_space dot_char) with false. cbn [negb].
    change (visible (c1 :: dot_char :: c3 :: rest))
      with (if negb (is_space c1)
            then c1 :: (if negb (is_space dot_char)
                        then dot_char :: (if negb (is_space c3)
                                          then c3 :: visible rest
                                          else visible rest)
                        else (if negb (is_space c3)
                              then c3 :: visible rest else visible rest))
            else (if negb (is_space dot_char)
                  then dot_char :: (if negb (is_space c3)
                                    then c3 :: visible rest
                                    else visible rest)
                  else (if negb (is_space c3)
                        then c3 :: visible rest else visible rest))).
    rewrite S1, S3. change (is_space dot_char) with false. cbn [negb].
    rewrite <- (visible_skip_run rest), Er.
    change (visible (d :: tail))
      with (if negb (is_space d) then d :: visible tail else visible tail).
    now rewrite Nd.
  - change (visible (c :: sub_dot 0 s'))
      with (if negb (is_space c) then c :: visible (sub_dot 0 s')
            else visible (sub_dot 0 s')).
    change (visible (c :: s'))
      with (if negb (is_space c) then c :: visible s' else visible s').
    now rewrite (IH 0%nat).
Qed.

Lemma visible_cons (c : ascii) (s : text) :
  visible (c :: s) = if is_space c then visible s else c :: visible s.
Proof. unfold visible; cbn [filter]. destruct (is_space c); reflexivity. Qed.

Lemma blank_is_space (c : ascii) : is_blank c = true -> is_space c = true.
Proof. intros H. rewrite (is_blank_eq _ H). reflexivity. Qed.

Lemma sub_between_digits_visible (s : text) (prev : option ascii) :
  visible (sub_between_digits prev s) = visible s.
Proof.
  revert prev. induction s as [| c s' IH]; intros prev; [reflexivity |].
  cbn [sub_between_digits].
  destruct (is_blank c) eqn:B; cbn [andb].
  - rewrite (visible_cons c s'), (blank_is_space _ B).
    match goal with |- context [if ?b then _ else _] => destruct b end;
      rewrite ?visible_cons, ?(blank_is_space _ B); apply IH.
  - rewrite !visible_cons, IH. reflexivity.
Qed.

Lemma sub_runs_visible (s : text) (in_run : bool) :
  visible (sub_runs in_run s) = visible s.
Proof.
  revert in_run. induction s as [| c s' IH]; intros in_run; [reflexivity |].
  cbn [sub_runs]. rewrite (visible_cons c s').
  destruct (is_space c) eqn:E.
  - destruct in_run; [apply IH |].
    destruct s' as [| n s'']; [rewrite visible_cons, E; reflexivity |].
    destruct (is_space n) eqn:En.
    + rewrite visible_cons. change (is_space space_char) with true. apply IH.
    + rewrite visible_cons, E. apply IH.
  - rewrite visible_cons, E, IH. reflexivity.
Qed.

Lemma sub_dot_length (s : text) (skip : nat) :
  (List.length (sub_dot skip s) <= List.length s - skip)%nat.
Proof.
  revert skip. induction s as [| c s' IH]; intros skip;
    [destruct skip; cbn; lia |].
  destruct skip as [| k]; cbn [sub_dot]; [| cbn [List.length]; apply IH].
  destruct (match_dot (c :: s')) as [[d len] |] eqn:M.
  - destruct (match_dot_shape _ _ _ M)
      as (c1 & c3 & rest & tail & Es & _ & _ & Er & _ & ->).
    injection Es as -> ->.
    destruct (skipn_run_length _ _ _ Er) as [Hl _].
    change (Nat.pred (4 + space_run rest)) with (3 + space_run rest)%nat.
    pose proof (IH (3 + space_run rest)%nat) as L.
    cbn [List.length] in *. lia.
  - pose proof (IH 0%nat). cbn [List.length]. lia.
Qed.

Lemma sub_between_digits_length (s : text) (prev : option ascii) :
  (List.length (sub_between_digits prev s) <= List.length s)%nat.
Proof.
  revert prev. induction s as [| c s' IH]; intros prev; [cbn; lia |].
  cbn [sub_between_digits].
  match goal with |- context [if ?b then _ else _] => destruct b end;
    pose proof (IH (Some c)); cbn [List.length]; lia.
Qed.

Lemma sub_runs_length (s : text) (in_run : bool) :
  (List.length (sub_runs in_run s) <= List.length s)%nat.
Proof.
  revert in_run. induction s as [| c s' IH]; intros in_run; [cbn; lia |].
  cbn [sub_runs].
  destruct (is_space c); [destruct in_run |].
  - pose proof (IH true); cbn [List.length]; lia.
  - destruct s' as [| n s'']; [cbn; lia |].
    destruct (is_space n);
      [pose proof (IH true) | pose proof (IH false)];
      cbn [List.length] in *; lia.
  - pose proof (IH false); cbn [List.length]; lia.
Qed.

(** X15.  The cleaning only removes spaces or replaces a run of spaces
    by one space: the characters that are not spaces come out unchanged
    and in the same order, and the text does not get longer. *)
Theorem clean_keeps_visible (s : text) :
  visible (clean s) = visible s /\
  (List.length (clean s) <= List.length s)%nat.
Proof.
  unfold clean. split.
  - rewrite sub_runs_visible, sub_between_digits_visible.
    exact (sub_dot_visible s 0).
  - pose proof (sub_runs_length (sub_between_digits None (sub_dot 0 s)) false).
    pose proof (sub_between_digits_length (sub_dot 0 s) None).
    pose proof (sub_dot_length s 0). lia.
Qed.

Lemma sub_runs_in_run_head (s : text) :
  match sub_runs true s with
  | c :: _ => is_space c = false
  | [] => True
  end.
Proof.
  induction s as [| c s' IH]; [exact I |].
  cbn [sub_runs]. destruct (is_space c) eqn:E; [exact IH | exact E].
Qed.

Lemma sub_runs_head (c : ascii) (s : text) (in_run : bool) :
  is_space c = false ->
  sub_runs in_run (c :: s) = c :: sub_runs false s.
Proof. intros E. cbn [sub_runs]. now rewrite E. Qed.

Lemma no_double_space_cons (c : ascii) (s : text) :
  no_double_space s = true ->
  match s with n :: _ => is_space c && is_space n = false | [] => True end ->
  no_double_space (c :: s) = true.
Proof.
  intros H G. destruct s as [| n s']; [reflexivity |].
  cbn [no_double_space] in *. rewrite G. exact H.
Qed.

Lemma sub_runs_no_double (s : text) (in_run : bool) :
  no_double_space (sub_runs in_run s) = true.
Proof.
  revert in_run. induction s as [| c s' IH]; intros in_run; [reflexivity |].
  cbn [sub_runs]. destruct (is_space c) eqn:E.
  - destruct in_run; [apply IH |].
    destruct s' as [| n s'']; [reflexivity |].
    destruct (is_space n) eqn:En.
    + apply no_double_space_cons; [apply IH |].
      pose proof (sub_runs_in_run_head (n :: s'')) as Hh.
      destruct (sub_runs true (n :: s'')); [exact I |].
      rewrite Hh. apply andb_false_r.
    + apply no_double_space_cons; [apply IH |].
      rewrite (sub_runs_head _ _ _ En), En. apply andb_false_r.
  - apply no_double_space_cons; [apply IH |].
    destruct (sub_runs false s'); [exact I |]. now rewrite E.
Qed.

(** X16.  In a cleaned text no two spaces are adjacent, whatever the
    text was. *)
Theorem clean_no_double_space (s : text) :
  no_double_space (clean s) = true.
Proof. unfold clean. apply sub_runs_no_double. Qed.

(** *** The held text of a list of numbers is cleaned to the numbers *)

Lemma spaced_cons (c : ascii) (s : text) :
  spaced (c :: s) = c :: space_each s.
Proof.
  revert c. induction s as [| c' s' IH]; intros c; [reflexivity |].
  change (spaced (c :: c' :: s')) with (c :: space_char :: spaced (c' :: s')).
  now rewrite IH.
Qed.

Lemma space_each_app (a b : text) :
  space_each (a ++ b) = space_each a ++ space_each b.
Proof. apply flat_map_app. Qed.

Lemma match_dot_not_space (c : ascii) (t : text) :
  is_space c = false -> match_dot (c :: t) = None.
Proof.
  intros E. destruct t as [| c2 [| c3 rest]]; try reflexivity.
  unfold match_dot. now rewrite E.
Qed.

Lemma match_dot_not_dot (c1 c2 : ascii) (t : text) :
  is_dot c2 = false -> match_dot (c1 :: c2 :: t) = None.
Proof.
  intros E. destruct t as [| c3 rest]; try reflexivity.
  unfold match_dot. rewrite E, andb_false_r. reflexivity.
Qed.

Lemma sub_dot_no_match (c : ascii) (t : text) :
  match_dot (c :: t) = None -> sub_dot 0 (c :: t) = c :: sub_dot 0 t.
Proof. intros E. cbn [sub_dot]. now rewrite E. Qed.

Lemma sub_dot_digit (d : ascii) (t : text) :
  is_digit d = true -> sub_dot 0 (d :: t) = d :: sub_dot 0 t.
Proof.
  intros D. destruct (digit_not_space _ D) as (N & _).
  apply sub_dot_no_match, match_dot_not_space, N.
Qed.

Lemma sub_dot_space_each (ds t : text) :
  forallb is_digit ds = true ->
  sub_dot 0 (space_each ds ++ t) = space_each ds ++ sub_dot 0 t.
Proof.
  induction ds as [| d ds IH]; [reflexivity |].
  cbn [forallb]. rewrite andb_true_iff. intros [D Ds].
  change (space_each (d :: ds) ++ t)
    with (space_char :: d :: (space_each ds ++ t)).
  change (space_each (d :: ds) ++ sub_dot 0 t)
    with (space_char :: d :: (space_each ds ++ sub_dot 0 t)).
  destruct (digit_not_space _ D) as (_ & _ & Nd).
  rewrite (sub_dot_no_match _ _ (match_dot_not_dot _ _ _ Nd)).
  now rewrite (sub_dot_digit _ _ D), (IH Ds).
Qed.

Lemma sub_dot_point (f : ascii) (t : text) :
  is_digit f = true ->
  sub_dot 0 (space_char :: dot_char :: space_char :: f :: t)
  = dot_char :: f :: sub_dot 0 t.
Proof.
  intros D. destruct (digit_not_space _ D) as (N & _).
  cbn [sub_dot]. unfold match_dot.
  change (is_space space_char) with true.
  change (is_dot dot_char) with true. cbn [andb space_run].
  rewrite N. cbn [skipn]. rewrite D. reflexivity.
Qed.

Lemma sub_dot_separator (d : ascii) (t : text) :
  is_digit d = true ->
  sub_dot 0 (space_char :: space_char :: space_char :: d :: t)
  = space_char :: space_char :: space_char :: sub_dot 0 (d :: t).
Proof.
  intros D. destruct (digit_not_space _ D) as (_ & _ & Nd).
  rewrite (sub_dot_no_match space_char
             (space_char :: space_char :: d :: t));
    [| apply match_dot_not_dot; reflexivity].
  rewrite (sub_dot_no_match space_char (space_char :: d :: t));
    [| apply match_dot_not_dot; reflexivity].
  rewrite (sub_dot_no_match space_char (d :: t));
    [| apply match_dot_not_dot; exact Nd].
  reflexivity.
Qed.

Lemma sub_dot_number (n : text * text) (t : text) :
  well_formed n ->
  sub_dot 0 (spaced (written n) ++ t) = half_joined n ++ sub_dot 0 t.
Proof.
  destruct n as [ip fp]. unfold well_formed, written, half_joined.
  cbn [fst snd]. intros (Hne & Hi & Hf).
  destruct ip as [| i ip']; [contradiction |].
  cbn [forallb] in Hi. apply andb_true_iff in Hi. destruct Hi as [Di Dip].
  destruct fp as [| f fp'].
  - rewrite spaced_cons. cbn [app].
    now rewrite (sub_dot_digit _ _ Di), (sub_dot_space_each _ _ Dip).
  - cbn [forallb] in Hf. apply andb_true_iff in Hf. destruct Hf as [Df Dfp].
    cbn [app]. rewrite !spaced_cons, space_each_app.
    change (space_each (dot_char :: f :: fp'))
      with (space_char :: dot_char :: space_char :: f :: space_each fp').
    cbn [app]. rewrite <- !app_assoc. cbn [app].
    rewrite (sub_dot_digit _ _ Di), (sub_dot_space_each _ _ Dip).
    rewrite (sub_dot_point _ _ Df), (sub_dot_space_each _ _ Dfp).
    reflexivity.
Qed.

Lemma nonblank_kept (c : ascii) (p : option ascii) (t : text) :
  is_blank c = false ->
  sub_between_digits p (c :: t) = c :: sub_between_digits (Some c) t.
Proof. intros E. cbn [sub_between_digits]. now rewrite E. Qed.

Lemma between_digits_space_each (ds t : text) (p : ascii) :
  is_digit p = true -> forallb is_digit ds = true ->
  exists q : ascii,
    is_digit q = true /\
    sub_between_digits (Some p) (space_each ds ++ t)
    = ds ++ sub_between_digits (Some q) t.
Proof.
  revert p. induction ds as [| d ds IH]; intros p P.
  - intros _. exists p. split; [exact P | reflexivity].
  - cbn [forallb]. rewrite andb_true_iff. intros [D Ds].
    destruct (IH d D Ds) as (q & Q & E). exists q. split; [exact Q |].
    change (space_each (d :: ds) ++ t)
      with (space_char :: d :: (space_each ds ++ t)).
    destruct (digit_not_space _ D) as (_ & Nb & _).
    cbn [sub_between_digits].
    change (is_blank space_char) with true. rewrite P, D, Nb. cbn [andb].
    fold (sub_between_digits (Some d) (space_each ds ++ t)).
    now rewrite E.
Qed.

Lemma between_digits_separator (p : option ascii) (c : ascii) (t : text) :
  sub_between_digits p (space_char :: space_char :: space_char :: c :: t)
  = space_char :: space_char :: space_char
    :: sub_between_digits (Some space_char) (c :: t).
Proof.
  cbn [sub_between_digits].
  change (is_digit space_char) with false.
  rewrite !andb_false_r. cbn [andb]. reflexivity.
Qed.

Lemma between_digits_number (n : text * text) (p : option ascii) (t : text) :
  well_formed n ->
  exists q : ascii,
    is_digit q = true /\
    sub_between_digits p (half_joined n ++ t)
    = written n ++ sub_between_digits (Some q) t.
Proof.
  destruct n as [ip fp]. unfold well_formed, written, half_joined.
  cbn [fst snd]. intros (Hne & Hi & Hf).
  destruct ip as [| i ip']; [contradiction |].
  cbn [forallb] in Hi. apply andb_true_iff in Hi. destruct Hi as [Di Dip].
  destruct (digit_not_space _ Di) as (_ & Nbi & _).
  destruct fp as [| f fp'].
  - rewrite spaced_cons. cbn [app]. rewrite (nonblank_kept _ _ _ Nbi).
    destruct (between_digits_space_each ip' t i Di Dip) as (q & Q & E).
    exists q. split; [exact Q |]. now rewrite E.
  - cbn [forallb] in Hf. apply andb_true_iff in Hf. destruct Hf as [Df Dfp].
    destruct (digit_not_space _ Df) as (_ & Nbf & _).
    rewrite spaced_cons. cbn [app]. rewrite <- !app_assoc. cbn [app].
    rewrite (nonblank_kept _ _ _ Nbi).
    destruct (between_digits_space_each ip'
                (dot_char :: f :: space_each fp' ++ t) i Di Dip)
      as (q & Q & E).
    rewrite E.
    rewrite (nonblank_kept dot_char) by reflexivity.
    rewrite (nonblank_kept _ _ _ Nbf).
    destruct (between_digits_space_each fp' t f Df Dfp) as (q' & Q' & E').
    exists q'. split; [exact Q' |]. rewrite E'.
    cbn [app]. rewrite <- app_assoc. reflexivity.
Qed.

Lemma sub_runs_word (w t : text) (in_run : bool) :
  w <> [] -> forallb (fun c => negb (is_space c)) w = true ->
  sub_runs in_run (w ++ t) = w ++ sub_runs false t.
Proof.
  revert in_run. induction w as [| c w IH]; intros in_run Hne Hw;
    [contradiction |].
  cbn [forallb] in Hw. apply andb_true_iff in Hw. destruct Hw as [C W].
  apply negb_true_iff in C.
  cbn [app]. rewrite (sub_runs_head _ _ _ C).
  destruct w as [| c' w']; [reflexivity |].
  rewrite (IH false); [reflexivity | discriminate | exact W].
Qed.

Lemma sub_runs_separator (c : ascii) (t : text) :
  is_space c = false ->
  sub_runs false (space_char :: space_char :: space_char :: c :: t)
  = space_char :: sub_runs false (c :: t).
Proof.
  intros E. cbn [sub_runs]. change (is_space space_char) with true.
  cbn iota. now rewrite E.
Qed.

Lemma join_cons (sep x y : text) (l : list text) :
  join sep (x :: y :: l) = x ++ sep ++ join sep (y :: l).
Proof. reflexivity. Qed.

Lemma join_head (sep r : text) (d : ascii) (l : list text) :
  exists r' : text, join sep ((d :: r) :: l) = d :: r'.
Proof.
  destruct l as [| y l]; [exists r; reflexivity |].
  rewrite join_cons. eexists. reflexivity.
Qed.

Lemma number_head (n : text * text) :
  well_formed n ->
  exists (d : ascii) (r1 r2 r3 : text),
    is_digit d = true /\
    spaced (written n) = d :: r1 /\ half_joined n = d :: r2 /\
    written n = d :: r3.
Proof.
  destruct n as [ip fp]. unfold well_formed, written, half_joined.
  cbn [fst snd]. intros (Hne & Hi & _).
  destruct ip as [| i ip']; [contradiction |].
  cbn [forallb] in Hi. apply andb_true_iff in Hi. destruct Hi as [Di _].
  exists i. destruct fp as [| f fp']; cbn [app]; rewrite !spaced_cons;
    cbn [app]; do 3 eexists; repeat split; trivial.
Qed.

Lemma written_visible (n : text * text) :
  well_formed n ->
  written n <> [] /\ forallb (fun c => negb (is_space c)) (written n) = true.
Proof.
  destruct n as [ip fp]. unfold well_formed, written. cbn [fst snd].
  intros (Hne & Hi & Hf).
  assert (V : forall ds, forallb is_digit ds = true ->
              forallb (fun c => negb (is_space c)) ds = true).
  { induction ds as [| d ds IH]; [reflexivity |]. cbn [forallb].
    rewrite !andb_true_iff. intros [D Ds].
    destruct (digit_not_space _ D) as (N & _). rewrite N. auto. }
  destruct fp as [| f fp']; [split; auto |].
  split; [destruct ip; discriminate |].
  rewrite forallb_app. rewrite (V _ Hi). cbn [forallb andb].
  change (is_space dot_char) with false. cbn [negb andb].
  apply (V _ Hf).
Qed.

Lemma joined_head (g : text * text -> text) (sep : text)
    (n : text * text) (l : list (text * text)) :
  (exists (d : ascii) (r : text), is_digit d = true /\ g n = d :: r) ->
  exists (d : ascii) (r : text),
    is_digit d = true /\ join sep (map g (n :: l)) = d :: r.
Proof.
  intros (d & r & D & E). exists d. cbn [map]. rewrite E.
  destruct (join_head sep r d (map g l)) as (r' & Er).
  exists r'. split; [exact D | exact Er].
Qed.

Lemma sub_dot_after_separator (t : text) :
  (exists (d : ascii) (r : text), is_digit d = true /\ t = d :: r) ->
  sub_dot 0 ([space_char; space_char; space_char] ++ t)
  = [space_char; space_char; space_char] ++ sub_dot 0 t.
Proof.
  intros (d & r & D & ->). cbn [app]. apply sub_dot_separator, D.
Qed.

Lemma between_digits_after_separator (p : option ascii) (t : text) :
  (exists (d : ascii) (r : text), is_digit d = true /\ t = d :: r) ->
  sub_between_digits p ([space_char; space_char; space_char] ++ t)
  = [space_char; space_char; space_char]
    ++ sub_between_digits (Some space_char) t.
Proof.
  intros (d & r & D & ->). cbn [app]. apply between_digits_separator.
Qed.

Lemma sub_runs_after_separator (t : text) :
  (exists (d : ascii) (r : text), is_digit d = true /\ t = d :: r) ->
  sub_runs false ([space_char; space_char; space_char] ++ t)
  = [space_char] ++ sub_runs false t.
Proof.
  intros (d & r & D & ->). cbn [app].
  destruct (digit_not_space _ D) as (N & _).
  apply sub_runs_separator, N.
Qed.

Lemma sub_dot_held (n : text * text) (l : list (text * text)) :
  Forall well_formed (n :: l) ->
  sub_dot 0 (held (n :: l))
  = join [space_char; space_char; space_char] (map half_joined (n :: l)).
Proof.
  revert n. induction l as [| n2 l IH]; intros n H.
  - apply Forall_inv in H. unfold held. cbn [map join].
    rewrite <- (app_nil_r (spaced (written n))).
    rewrite (sub_dot_number _ _ H). cbn [sub_dot]. apply app_nil_r.
  - pose proof (Forall_inv H) as Hn. apply Forall_inv_tail in H.
    pose proof (Forall_inv H) as Hn2.
    specialize (IH n2 H). unfold held in *.
    change (map (fun m => spaced (written m)) (n :: n2 :: l))
      with (spaced (written n)
            :: map (fun m => spaced (written m)) (n2 :: l)).
    change (map half_joined (n :: n2 :: l))
      with (half_joined n :: map half_joined (n2 :: l)).
    set (rest := map (fun m => spaced (written m)) (n2 :: l)) in *.
    set (rest' := map half_joined (n2 :: l)) in *.
    assert (Hh : exists (d : ascii) (r : text),
               is_digit d = true /\
               join [space_char; space_char; space_char] rest = d :: r).
    { apply joined_head.
      destruct (number_head _ Hn2) as (d & r1 & _ & _ & D & E1 & _).
      now exists d, r1. }
    unfold rest, rest' in *. cbn [map] in *. rewrite !join_cons.
    rewrite (sub_dot_number _ _ Hn), (sub_dot_after_separator _ Hh), IH.
    reflexivity.
Qed.

Lemma between_digits_held
    (n : text * text) (l : list (text * text)) (p : option ascii) :
  Forall well_formed (n :: l) ->
  sub_between_digits p
    (join [space_char; space_char; space_char] (map half_joined (n :: l)))
  = join [space_char; space_char; space_char] (map written (n :: l)).
Proof.
  revert n p. induction l as [| n2 l IH]; intros n p H.
  - apply Forall_inv in H. cbn [map join].
    rewrite <- (app_nil_r (half_joined n)).
    destruct (between_digits_number n p [] H) as (q & _ & E).
    rewrite E. cbn [sub_between_digits]. apply app_nil_r.
  - pose proof (Forall_inv H) as Hn. apply Forall_inv_tail in H.
    pose proof (Forall_inv H) as Hn2.
    assert (Hh : exists (d : ascii) (r : text),
               is_digit d = true /\
               join [space_char; space_char; space_char]
                 (map half_joined (n2 :: l)) = d :: r).
    { apply joined_head.
      destruct (number_head _ Hn2) as (d & _ & r2 & _ & D & _ & E2 & _).
      now exists d, r2. }
    pose proof (IH n2 (Some space_char) H) as IH'.
    cbn [map] in *. rewrite !join_cons.
    match goal with
    | |- sub_between_digits p (_ ++ ?t) = _ =>
        destruct (between_digits_number n p t Hn) as (q & _ & E)
    end.
    rewrite E, (between_digits_after_separator _ _ Hh), IH'.
    reflexivity.
Qed.

Lemma sub_runs_held (n : text * text) (l : list (text * text)) :
  Forall well_formed (n :: l) ->
  sub_runs false
    (join [space_char; space_char; space_char] (map written (n :: l)))
  = join [space_char] (map written (n :: l)).
Proof.
  revert n. induction l as [| n2 l IH]; intros n H.
  - apply Forall_inv in H. cbn [map join].
    destruct (written_visible _ H) as [Hne Hv].
    rewrite <- (app_nil_r (written n)).
    rewrite (sub_runs_word _ _ _ Hne Hv). reflexivity.
  - pose proof (Forall_inv H) as Hn. apply Forall_inv_tail in H.
    pose proof (Forall_inv H) as Hn2.
    assert (Hh : exists (d : ascii) (r : text),
               is_digit d = true /\
               join [space_char; space_char; space_char]
                 (map written (n2 :: l)) = d :: r).
    { apply joined_head.
      destruct (number_head _ Hn2) as (d & _ & _ & r3 & D & _ & _ & E3).
      now exists d, r3. }
    pose proof (IH n2 H) as IH'.
    cbn [map] in *. rewrite !join_cons.
    destruct (written_visible _ Hn) as [Hne Hv].
    rewrite (sub_runs_word _ _ _ Hne Hv).
    rewrite (sub_runs_after_separator _ Hh), IH'. reflexivity.
Qed.

(** X17.  Cleaning the held text of a list of numbers gives the numbers
    themselves, separated by one space: for numbers made of decimal
    digits, with a non-empty integer part and, after a point, a
    fractional part (or no point and no fractional part), written with
    one space between any two characters and three spaces between two
    numbers. *)
Theorem clean_held (numbers : list (text * text)) :
  Forall well_formed numbers ->
  clean (held numbers) = join [space_char] (map written numbers).
Proof.
  intros H. destruct numbers as [| n l]; [reflexivity |].
  unfold clean.
  now rewrite (sub_dot_held _ _ H), (between_digits_held _ _ _ H),
    (sub_runs_held _ _ H).
Qed.

Lemma clean_held_witness :
  clean (list_ascii_of_string "4 3 . 6   5 0 . 0   2 7 0")
  = list_ascii_of_string "43.6 50.0 270".
Proof.
  apply (clean_held
           [(list_ascii_of_string "43", list_ascii_of_string "6");
            (list_ascii_of_string "50", list_ascii_of_string "0");
            (list_ascii_of_string "270", [])]).
  repeat constructor; discriminate.
Defined.

(** ** The cross-section script *)

Lemma ThetaE_ok (TC RH prlev : R) :
  0 < prlev -> 237.7 + TC <> 0 ->
  ThetaE TC RH prlev
  = Ok ((273.15 + TC) * Rpower (1000 / prlev) 0.286
        + (3 * (RH * (3.884266 * Rpower 10 ((7.5 * TC) / (237.7 + TC)))
                / 100))).
Proof.
  intros Hp Ht. unfold ThetaE.
  destruct (Rle_dec prlev 0); [exfalso; lra |].
  destruct (Req_dec_T (237.7 + TC) 0); [contradiction | reflexivity].
Qed.

(** X18.  For a positive pressure level and a temperature other than
    -237.7 degrees the equivalent potential temperature is a number
    [v]: at 1000 hPa it is the absolute temperature plus the moisture
    term; with a relative humidity that is not negative it is at least
    the potential temperature [(273.15 + TC) * (1000/prlev) ** 0.286];
    it grows strictly with the relative humidity; and for a positive
    absolute temperature it decreases strictly when the pressure level
    grows.  At the temperature -237.7 the expression divides by zero,
    whatever the humidity and the pressure level are. *)
Theorem ThetaE_properties (TC RH prlev : R) :
  0 < prlev ->
  237.7 + TC <> 0 ->
  let moisture := fun rh : R =>
    3 * (rh * (3.884266 * Rpower 10 ((7.5 * TC) / (237.7 + TC))) / 100) in
  (exists v : R,
     ThetaE TC RH prlev = Ok v /\
     (prlev = 1000 -> v = (273.15 + TC) + moisture RH) /\
     (0 <= RH -> (273.15 + TC) * Rpower (1000 / prlev) 0.286 <= v) /\
     (forall RH' : R,
        RH < RH' ->
        exists v' : R, ThetaE TC RH' prlev = Ok v' /\ v < v') /\
     (forall prlev' : R,
        0 < 273.15 + TC -> prlev < prlev' ->
        exists v' : R, ThetaE TC RH prlev' = Ok v' /\ v' < v)) /\
  (forall rh p : R, ThetaE (-237.7) rh p = Halt NonFinite).
Proof.
  intros Hp Ht moisture. split.
  - rewrite (ThetaE_ok _ _ _ Hp Ht). eexists. split; [reflexivity |].
    assert (P10 : 0 < Rpower 10 (7.5 * TC / (237.7 + TC)))
      by (unfold Rpower; apply exp_pos).
    unfold moisture. repeat split.
    + intros ->. replace (1000 / 1000) with 1 by lra.
      unfold Rpower at 1. rewrite ln_1, Rmult_0_r, exp_0. ring.
    + intros H. nra.
    + intros RH' H. rewrite (ThetaE_ok _ _ _ Hp Ht).
      eexists. split; [reflexivity | nra].
    + intros prlev' HT Hlt.
      rewrite (ThetaE_ok TC RH prlev') by lra.
      eexists. split; [reflexivity |].
      assert (Rpower (1000 / prlev') 0.286 < Rpower (1000 / prlev) 0.286).
      { apply Rlt_Rpower_l; [lra |]. split.
        - apply Rdiv_lt_0_compat; lra.
        - unfold Rdiv. apply Rmult_lt_compat_l; [lra |].
          apply Rinv_lt_contravar; [nra | exact Hlt]. }
      nra.
  - intros rh p. unfold ThetaE.
    destruct (Rle_dec p 0); [reflexivity |].
    destruct (Req_dec_T (237.7 + -237.7) 0) as [_ | N]; [reflexivity |].
    exfalso. apply N. lra.
Qed.

Lemma ThetaE_properties_witness :
  exists v v' : R,
    ThetaE 20 50 850 = Ok v /\ ThetaE 20 50 1000 = Ok v' /\ v' < v.
Proof.
  destruct (ThetaE_properties 20 50 850) as ((v & E & _ & _ & _ & D) & _);
    [lra | lra |].
  destruct (D 1000) as (v' & E' & L); [lra | lra |].
  exists v, v'. repeat split; assumption.
Defined.

Lemma nth_error_map_indexed {A B : Type} (f : nat -> A -> B)
    (l : list A) (i k : nat) :
  nth_error (map_indexed f i l) k = option_map (f (i + k)%nat) (nth_error l k).
Proof.
  revert i k. induction l as [| x l IH]; intros i k.
  - destruct k; reflexivity.
  - destruct k as [| k]; cbn [map_indexed nth_error option_map].
    + now rewrite Nat.add_0_r.
    + rewrite IH. now rewrite Nat.add_succ_r.
Qed.

Lemma element_assign_strided {A : Type} (r0 rs c0 cs : nat) (v : A)
    (a : list (list A)) (i j : nat) :
  element (assign_strided r0 rs c0 cs v a) i j
  = option_map
      (fun x => if on_stride r0 rs i && on_stride c0 cs j then v else x)
      (element a i j).
Proof.
  unfold element, assign_strided. rewrite nth_error_map_indexed.
  destruct (nth_error a i) as [row |]; cbn [option_map]; [| reflexivity].
  now rewrite nth_error_map_indexed.
Qed.

Lemma on_stride_spec (start step i : nat) :
  on_stride start step i = true <->
  (start <= i /\ (i - start) mod step = 0)%nat.
Proof.
  unfold on_stride. now rewrite andb_true_iff, Nat.leb_le, Nat.eqb_eq.
Qed.

Lemma on_stride_from_0 (step i : nat) :
  on_stride 0 step i = (i mod step =? 0)%nat.
Proof. unfold on_stride. now rewrite Nat.sub_0_r. Qed.

Lemma succ_mod_2 (i : nat) :
  (i mod 2 =? 0)%nat = (S i mod 2 =? 1)%nat.
Proof.
  pose proof (Nat.mod_upper_bound i 2 ltac:(discriminate)) as B.
  pose proof (Nat.div_mod_eq i 2) as E.
  assert (H : (S i mod 2 = (i mod 2 + 1) mod 2)%nat).
  { rewrite <- Nat.add_1_r. symmetry. apply Nat.Div0.add_mod_idemp_l. }
  rewrite H. destruct (i mod 2)%nat as [| [| k]]; [reflexivity .. | lia].
Qed.

Lemma succ_mod_3 (i : nat) :
  (i mod 3 =? 0)%nat = (S i mod 3 =? 1)%nat.
Proof.
  pose proof (Nat.mod_upper_bound i 3 ltac:(discriminate)) as B.
  assert (H : (S i mod 3 = (i mod 3 + 1) mod 3)%nat).
  { rewrite <- Nat.add_1_r. symmetry. apply Nat.Div0.add_mod_idemp_l. }
  rewrite H. destruct (i mod 3)%nat as [| [| [| k]]]; [reflexivity .. | lia].
Qed.

Lemma on_stride_from_1 (i : nat) :
  on_stride 1 2 i = (i mod 2 =? 1)%nat /\
  on_stride 1 3 i = (i mod 3 =? 1)%nat.
Proof.
  unfold on_stride. destruct i as [| i]; [split; reflexivity |].
  change (1 <=? S i)%nat with true. rewrite Nat.sub_succ, Nat.sub_0_r.
  cbn [andb]. split; [apply succ_mod_2 | apply succ_mod_3].
Qed.

Lemma strides_kept (i j : nat) :
  kept i j
  = negb (on_stride 0 2 i && on_stride 1 2 j
          || on_stride 1 2 i && on_stride 0 2 j
          || on_stride 0 3 i && on_stride 1 3 j
          || on_stride 1 3 i && on_stride 0 3 j).
Proof.
  rewrite !on_stride_from_0.
  rewrite (proj1 (on_stride_from_1 i)), (proj2 (on_stride_from_1 i)),
    (proj1 (on_stride_from_1 j)), (proj2 (on_stride_from_1 j)).
  unfold kept.
  pose proof (Nat.mod_upper_bound i 2 ltac:(discriminate)) as Bi2.
  pose proof (Nat.mod_upper_bound j 2 ltac:(discriminate)) as Bj2.
  pose proof (Nat.mod_upper_bound i 3 ltac:(discriminate)) as Bi3.
  pose proof (Nat.mod_upper_bound j 3 ltac:(discriminate)) as Bj3.
  destruct (i mod 2)%nat as [| [| a]]; [| | lia];
    destruct (j mod 2)%nat as [| [| b]]; try lia;
    destruct (i mod 3)%nat as [| [| [| c]]]; try lia;
    destruct (j mod 3)%nat as [| [| [| d]]]; try lia; reflexivity.
Qed.

(** X19.  The thinning of the wind components keeps the shape of the
    array and writes NaN at each position where the row and the column
    have different parities, or are congruent to (0, 1) or to (1, 0)
    modulo 3; every other element is unchanged. *)
Theorem thin_pattern {A : Type} (nan : A) (a : list (list A)) (i j : nat) :
  element (thin nan a) i j
  = option_map (fun x => if kept i j then x else nan) (element a i j).
Proof.
  unfold thin. rewrite !element_assign_strided, strides_kept.
  destruct (element a i j) as [x |]; cbn [option_map]; [| reflexivity].
  f_equal.
  destruct (on_stride 0 2 i && on_stride 1 2 j),
    (on_stride 1 2 i && on_stride 0 2 j),
    (on_stride 0 3 i && on_stride 1 3 j),
    (on_stride 1 3 i && on_stride 0 3 j); reflexivity.
Qed.
